(** * cyan-socket: presence directory and message routing

    A shallow embedding of the two server variants of the repository:

    - [TrieServer]  : [src/index.js], the unauthenticated relay whose presence
      directory is a prefix tree ([Trie]) mirrored by a [Map] from email to
      socket id;
    - [AuthServer]  : [src/unnamed/part_000], the relay with token
      authentication, a [Map] from email to [{socketId, userId}] and the
      Mongo collections [Conversation] and [Message].

    JavaScript strings are sequences of UTF-16 code units.  The trie walks a
    string with [for (let char of email)] in [insert] and [search] (iteration
    by code point) but with [email[depth]] and [email.length] in [remove]
    (indexing by code unit), so both views of a string are modelled. *)

From stdpp Require Import gmap strings list fin_maps.

#[local] Set Warnings "-register-all".
#[local] Open Scope N_scope.

(** ** JavaScript strings *)

Module JsString.

(** A string value: its UTF-16 code units. *)
Definition jsstring : Type := list N.

(** An ASCII literal as a JavaScript string. *)
Definition js (s : string) : jsstring :=
  (fun a => Ascii.N_of_ascii a) <$> String.list_ascii_of_string s.

Definition is_lead_surrogate (u : N) : bool := (0xD800 <=? u) && (u <=? 0xDBFF).
Definition is_trail_surrogate (u : N) : bool := (0xDC00 <=? u) && (u <=? 0xDFFF).

(** [for (let char of s)]: the string iterator yields one string per code
    point, a surrogate pair being a single two-unit string. *)
Fixpoint chars (s : jsstring) : list jsstring :=
  match s with
  | [] => []
  | u :: rest =>
      match rest with
      | v :: rest' =>
          if is_lead_surrogate u && is_trail_surrogate v
          then [u; v] :: chars rest'
          else [u] :: chars rest
      | [] => [[u]]
      end
  end.

(** [s[0], s[1], ..., s[s.length - 1]]: one one-unit string per code unit. *)
Definition units (s : jsstring) : list jsstring := (fun u => [u]) <$> s.

(** A string without surrogate pairs (every string of the Basic
    Multilingual Plane, so every ASCII email). *)
Fixpoint pair_free (s : jsstring) : bool :=
  match s with
  | [] => true
  | u :: rest =>
      match rest with
      | v :: _ => negb (is_lead_surrogate u && is_trail_surrogate v) && pair_free rest
      | [] => true
      end
  end.

(** Truthiness of a string value: only the empty string is falsy. *)
Definition truthy (s : jsstring) : bool :=
  match s with [] => false | _ :: _ => true end.

End JsString.

Export JsString.

(** ** [src/index.js]: the trie *)

Module TrieServer.

(** [class TrieNode]: [children] is an object used as a map from
    one-character strings to nodes.  Its keys are only ever single
    characters, which no inherited property of an object is named by, so
    [node.children[char]] is a lookup among the keys the trie has set. *)
Inductive TrieNode : Type :=
  mkTrieNode {
    children : gmap jsstring TrieNode;
    isEndOfWord : bool;
    socketId : option jsstring (* [None] is [null] *)
  }.

(** [new TrieNode()] *)
Definition newTrieNode : TrieNode := mkTrieNode ∅ false None.

(** [class Trie] *)
Record Trie : Type := mkTrie { root : TrieNode }.

(** [new Trie()] *)
Definition newTrie : Trie := mkTrie newTrieNode.

(** The loop of [Trie.insert] from the node reached so far: the child is
    created when missing, and the node at the end of the path is marked. *)
Fixpoint insert_from (cs : list jsstring) (sid : jsstring) (node : TrieNode) : TrieNode :=
  match cs with
  | [] => mkTrieNode (children node) true (Some sid)
  | c :: cs' =>
      let child := default newTrieNode (children node !! c) in
      mkTrieNode (<[c := insert_from cs' sid child]> (children node))
                 (isEndOfWord node) (socketId node)
  end.

(** [Trie.insert(email, socketId)] *)
Definition insert (email sid : jsstring) (t : Trie) : Trie :=
  mkTrie (insert_from (chars email) sid (root t)).

(** The loop of [Trie.search] from the node reached so far. *)
Fixpoint search_from (cs : list jsstring) (node : TrieNode) : option jsstring :=
  match cs with
  | [] => if isEndOfWord node then socketId node else None
  | c :: cs' =>
      match children node !! c with
      | None => None
      | Some child => search_from cs' child
      end
  end.

(** [Trie.search(email)] *)
Definition search (email : jsstring) (t : Trie) : option jsstring :=
  search_from (chars email) (root t).

(** [Object.keys(node.children).length === 0] *)
Definition no_children (kids : gmap jsstring TrieNode) : bool :=
  bool_decide (size kids = 0%nat).

(** [removeHelper(node, depth)] for a defined [node]; [us] is what is left
    of the email from [depth] on, one string per code unit.  The result is
    the returned boolean and the node after the mutations.  The call on an
    [undefined] child returns [false] and mutates nothing. *)
Fixpoint removeHelper (us : list jsstring) (node : TrieNode) : bool * TrieNode :=
  match us with
  | [] =>
      if isEndOfWord node
      then (no_children (children node), mkTrieNode (children node) false None)
      else (false, node)
  | c :: us' =>
      match children node !! c with
      | None => (false, node)
      | Some child =>
          let '(prune, child') := removeHelper us' child in
          if prune
          then
            let kids := delete c (children node) in
            (negb (isEndOfWord node) && no_children kids,
             mkTrieNode kids (isEndOfWord node) (socketId node))
          else
            (false,
             mkTrieNode (<[c := child']> (children node))
                        (isEndOfWord node) (socketId node))
      end
  end.

(** [Trie.remove(email)] *)
Definition remove (email : jsstring) (t : Trie) : Trie :=
  mkTrie (snd (removeHelper (units email) (root t))).

(** A sequence of method calls on one [Trie] object. *)
Inductive TrieCall : Type :=
| CallInsert (email sid : jsstring)
| CallRemove (email : jsstring).

Definition call (c : TrieCall) (t : Trie) : Trie :=
  match c with
  | CallInsert email sid => insert email sid t
  | CallRemove email => remove email t
  end.

Definition calls (cs : list TrieCall) (t : Trie) : Trie :=
  fold_left (fun t c => call c t) cs t.

(** The emails a sequence of calls has bound. *)
Fixpoint bound (cs : list TrieCall) : list jsstring :=
  match cs with
  | [] => []
  | CallInsert email _ :: cs' => email :: bound cs'
  | CallRemove _ :: cs' => bound cs'
  end.

(** *** The server of [src/index.js] *)

(** [emailToSocket]: a [Map], whose entries are iterated in insertion
    order; [set] on a present key keeps its position. *)
Fixpoint map_set (k v : jsstring) (m : list (jsstring * jsstring)) : list (jsstring * jsstring) :=
  match m with
  | [] => [(k, v)]
  | (k', v') :: m' =>
      if decide (k' = k) then (k, v) :: m' else (k', v') :: map_set k v m'
  end.

Definition map_delete (k : jsstring) (m : list (jsstring * jsstring)) : list (jsstring * jsstring) :=
  filter (fun kv => kv.1 <> k) m.

Fixpoint map_get (k : jsstring) (m : list (jsstring * jsstring)) : option jsstring :=
  match m with
  | [] => None
  | (k', v') :: m' => if decide (k' = k) then Some v' else map_get k m'
  end.

(** The two module-level objects [trie] and [emailToSocket]. *)
Record Server : Type := mkServer {
  trie : Trie;
  emailToSocket : list (jsstring * jsstring)
}.

Definition initial : Server := mkServer newTrie [].

(** Events the server emits. *)
Inductive Event : Type :=
| receive_message (from message : jsstring)   (* [{ from, message }] *)
| error_message (text : jsstring).

(** [socket.emit(ev)] and [io.to(id).emit(ev)] both address one socket. *)
Record Emission : Type := EmitTo { target : jsstring; event : Event }.

(** The template string of the [error_message] event; its first character
    is U+274C. *)
Definition not_found_text (toEmail : jsstring) : jsstring :=
  [0x274C; 0x20] ++ js "User " ++ toEmail ++ js " not found or offline".

(** [socket.on("register", (email) => ...)] *)
Definition register (sock email : jsstring) (st : Server) : Server :=
  mkServer (insert email sock (trie st)) (map_set email sock (emailToSocket st)).

(** [socket.on("send_message", ({ toEmail, message }) => ...)] *)
Definition send_message (sock toEmail message : jsstring) (st : Server) : list Emission :=
  match search toEmail (trie st) with
  | Some targetSocketId =>
      if truthy targetSocketId
      then [EmitTo targetSocketId (receive_message sock message)]
      else [EmitTo sock (error_message (not_found_text toEmail))]
  | None => [EmitTo sock (error_message (not_found_text toEmail))]
  end.

(** [socket.on("disconnect", () => ...)]: the first entry of the map whose
    value is this socket's id is removed, and the loop stops there. *)
Definition disconnect (sock : jsstring) (st : Server) : Server :=
  match List.find (fun kv => bool_decide (kv.2 = sock)) (emailToSocket st) with
  | Some (email, _) =>
      mkServer (remove email (trie st)) (map_delete email (emailToSocket st))
  | None => st
  end.

(** The map mirrors the trie: its keys are distinct (it is a [Map]) and
    each of its entries is an entry of the trie. *)
Definition mirrored (st : Server) : Prop :=
  NoDup (emailToSocket st).*1 /\
  forall e s, (e, s) ∈ emailToSocket st -> search e (trie st) = Some s.

(** What a client can make the server process. *)
Inductive Input : Type :=
| Connect (sock : jsstring)
| Register (sock email : jsstring)
| SendMessage (sock toEmail message : jsstring)
| Disconnect (sock : jsstring).

Definition step (i : Input) (st : Server) : Server * list Emission :=
  match i with
  | Connect _ => (st, [])
  | Register sock email => (register sock email st, [])
  | SendMessage sock toEmail message => (st, send_message sock toEmail message st)
  | Disconnect sock => (disconnect sock st, [])
  end.

Fixpoint run (inputs : list Input) (st : Server) : Server * list Emission :=
  match inputs with
  | [] => (st, [])
  | i :: inputs' =>
      let '(st1, out1) := step i st in
      let '(st2, out2) := run inputs' st1 in
      (st2, out1 ++ out2)
  end.

(** The sockets open after a run: connected and not disconnected since. *)
Fixpoint open_sockets (inputs : list Input) (opened : list jsstring) : list jsstring :=
  match inputs with
  | [] => opened
  | Connect sock :: inputs' => open_sockets inputs' (sock :: opened)
  | Disconnect sock :: inputs' => open_sockets inputs' (filter (fun s => s <> sock) opened)
  | _ :: inputs' => open_sockets inputs' opened
  end.

End TrieServer.

(** ** [src/unnamed/part_000]: the authenticated server *)

Module AuthServer.

(** [socket.user = { id, email, role }], the claims of a decoded token. *)
Record User : Type := mkUser { u_id : jsstring; u_email : jsstring; u_role : jsstring }.

(** A value of [connectedUsers]: [{ socketId, userId }]. *)
Record Presence : Type := mkPresence { socketId : jsstring; userId : jsstring }.

(** A document of the [Conversation] collection.  [_id] values are drawn
    fresh by the store; here they are the position of the document. *)
Record ConversationDoc : Type := mkConversation {
  conv_id : nat;
  participants : list jsstring;
  lastMessage : option nat
}.

(** A document of the [Message] collection. *)
Record MessageDoc : Type := mkMessage {
  msg_id : nat;
  conversation : nat;
  sender : jsstring;
  content : jsstring
}.

(** The module-level [connectedUsers], the [user] property of every socket
    object (absent until set), and the two collections. *)
Record State : Type := mkState {
  connectedUsers : gmap jsstring Presence;
  socket_user : gmap jsstring User;
  conversations : list ConversationDoc;
  messages : list MessageDoc
}.

Definition initial : State := mkState ∅ ∅ [] [].

Inductive Event : Type :=
| auth_success (user : User)
| auth_error (reason : jsstring)
| error (reason : jsstring)
| receive_message (from content : jsstring).   (* [{ from, content }] *)

Record Emission : Type := EmitTo { target : jsstring; event : Event }.

(** *** The store (the external collaborator behind mongoose) *)

(** The filter [{ participants: { $all: [a, b] } }]. *)
Definition all_of (a b : jsstring) (c : ConversationDoc) : bool :=
  bool_decide (a ∈ participants c) && bool_decide (b ∈ participants c).

(** [Conversation.findOne({ participants: { $all: [a, b] } })]: the first
    matching document in natural order, or [null].  The collection is only
    appended to and its documents are never deleted, so the natural order is
    taken to be the order of creation. *)
Definition findOne (a b : jsstring) (cs : list ConversationDoc) : option ConversationDoc :=
  List.find (all_of a b) cs.

(** [Conversation.create({ participants: [a, b] })] *)
Definition conversation_create (a b : jsstring) (cs : list ConversationDoc)
  : list ConversationDoc * nat :=
  (cs ++ [mkConversation (length cs) [a; b] None], length cs).

(** [Message.create({ conversation, sender, content })] *)
Definition message_create (conv : nat) (from text : jsstring) (ms : list MessageDoc)
  : list MessageDoc * nat :=
  (ms ++ [mkMessage (length ms) conv from text], length ms).

(** [conversation.lastMessage = message._id; conversation.save()] *)
Definition save_lastMessage (conv msg : nat) (cs : list ConversationDoc) : list ConversationDoc :=
  (fun c => if decide (conv_id c = conv)
            then mkConversation (conv_id c) (participants c) (Some msg)
            else c) <$> cs.

(** *** The handlers *)

Section Handlers.

(** [jwt.verify(token, process.env.JWT_SECRET)]: the decoded claims, or
    [None] when it throws. *)
Variable verify : jsstring -> option User.

(** [socket.on("authenticate", (token) => ...)] *)
Definition authenticate (sock token : jsstring) (st : State) : State * list Emission :=
  match verify token with
  | Some decoded =>
      let user := mkUser (u_id decoded) (u_email decoded) (u_role decoded) in
      (mkState (<[u_email decoded := mkPresence sock (u_id decoded)]> (connectedUsers st))
               (<[sock := user]> (socket_user st))
               (conversations st) (messages st),
       [EmitTo sock (auth_success user)])
  | None => (st, [EmitTo sock (auth_error (js "Invalid or expired token"))])
  end.

(** [socket.on("disconnect", () => ...)] *)
Definition disconnect (sock : jsstring) (st : State) : State :=
  match socket_user st !! sock with
  | Some user =>
      mkState (delete (u_email user) (connectedUsers st))
              (socket_user st) (conversations st) (messages st)
  | None => st
  end.

(** The [send_message] handler is an [async] function: it runs up to an
    [await], and goes on when the awaited store operation settles.  A
    [Task] is a suspended run: the variables of the closure and the
    operation it waits for. *)
Inductive Awaited : Type :=
| FindOne                              (* line 96 *)
| ConversationCreate                   (* line 101 *)
| MessageCreate (conv : nat)           (* line 107 *)
| Save (conv msg : nat).               (* line 115 *)

Record Task : Type := mkTask {
  task_socket : jsstring;
  task_content : jsstring;
  recipient : Presence;
  senderId : jsstring;
  receiverId : jsstring;
  awaited : Awaited
}.

Definition await (t : Task) (a : Awaited) : Task :=
  mkTask (task_socket t) (task_content t) (recipient t) (senderId t) (receiverId t) a.

(** How a run of the handler ends: the promise resolves, or it rejects
    with the error of the failed operation. *)
Inductive Outcome : Type := Resolved | Rejected.

Inductive Progress : Type :=
| Suspended (t : Task)
| Settled (o : Outcome).

(** Lines 87 to 96: from the event to the first [await]. *)
Definition send_message_begin (sock toEmail text : jsstring) (st : State)
  : list Emission * Progress :=
  match socket_user st !! sock with
  | None => ([EmitTo sock (error (js "You must authenticate first"))], Settled Resolved)
  | Some user =>
      match connectedUsers st !! toEmail with
      | None => ([EmitTo sock (error (js "Recipient not online"))], Settled Resolved)
      | Some rcpt =>
          ([], Suspended (mkTask sock text rcpt (u_id user) (userId rcpt) FindOne))
      end
  end.

(** Lines 96 to 121: the awaited operation settles ([ok] tells whether it
    succeeded) and the handler runs to its next [await] or to its end. *)
Definition resume (ok : bool) (t : Task) (st : State) : State * list Emission * Progress :=
  if negb ok then (st, [], Settled Rejected)
  else
    match awaited t with
    | FindOne =>
        match findOne (senderId t) (receiverId t) (conversations st) with
        | Some c => (st, [], Suspended (await t (MessageCreate (conv_id c))))
        | None => (st, [], Suspended (await t ConversationCreate))
        end
    | ConversationCreate =>
        let '(cs, c) := conversation_create (senderId t) (receiverId t) (conversations st) in
        (mkState (connectedUsers st) (socket_user st) cs (messages st), [],
         Suspended (await t (MessageCreate c)))
    | MessageCreate c =>
        let '(ms, m) := message_create c (senderId t) (task_content t) (messages st) in
        (mkState (connectedUsers st) (socket_user st) (conversations st) ms, [],
         Suspended (await t (Save c m)))
    | Save c m =>
        let st' := mkState (connectedUsers st) (socket_user st)
                           (save_lastMessage c m (conversations st)) (messages st) in
        match socket_user st !! task_socket t with
        | Some user =>
            (st', [EmitTo (socketId (recipient t))
                          (receive_message (u_email user) (task_content t))],
             Settled Resolved)
        | None => (st', [], Settled Rejected)   (* [socket.user] is never unset *)
        end
    end.

(** The store operations of one run, for telling which of them fail. *)
Inductive StoreOp : Type := OpFindOne | OpConversationCreate | OpMessageCreate | OpSave.

Definition op_of (a : Awaited) : StoreOp :=
  match a with
  | FindOne => OpFindOne
  | ConversationCreate => OpConversationCreate
  | MessageCreate _ => OpMessageCreate
  | Save _ _ => OpSave
  end.

(** A run of the handler that no other handler interleaves with:
    [succeeds op] tells whether the store operation [op] succeeds. *)
Fixpoint run_task (fuel : nat) (succeeds : StoreOp -> bool) (t : Task) (st : State)
  : State * list Emission * Progress :=
  match fuel with
  | O => (st, [], Suspended t)
  | S fuel' =>
      match resume (succeeds (op_of (awaited t))) t st with
      | (st1, out1, Suspended t1) =>
          let '(st2, out2, p) := run_task fuel' succeeds t1 st1 in
          (st2, out1 ++ out2, p)
      | settled => settled
      end
  end.

(** The operations a run from sender [a] to receiver [b] performs when
    none of them fails. *)
Definition attempted (a b : jsstring) (st : State) : list StoreOp :=
  match findOne a b (conversations st) with
  | Some _ => [OpFindOne; OpMessageCreate; OpSave]
  | None => [OpFindOne; OpConversationCreate; OpMessageCreate; OpSave]
  end.

(** [socket.on("send_message", async ({ toEmail, content }) => ...)], run
    to its end; a run awaits at most four operations. *)
Definition send_message (succeeds : StoreOp -> bool) (sock toEmail text : jsstring) (st : State)
  : State * list Emission * Progress :=
  match send_message_begin sock toEmail text st with
  | (out, Suspended t) =>
      let '(st', out', p) := run_task 4 succeeds t st in
      (st', out ++ out', p)
  | (out, settled) => (st, out, settled)
  end.

(** The state and the emission of a run in which every operation
    succeeds: the conversation is the first one that holds both ids, or a
    new one at the end of the collection. *)
Definition resolved_conversation (a b : jsstring) (cs : list ConversationDoc) : nat :=
  match findOne a b cs with
  | Some c => conv_id c
  | None => length cs
  end.

Definition with_conversation (a b : jsstring) (cs : list ConversationDoc)
  : list ConversationDoc :=
  match findOne a b cs with
  | Some c => cs
  | None => cs ++ [mkConversation (length cs) [a; b] None]
  end.

Definition after_send (user : User) (rcpt : Presence) (text : jsstring) (st : State) : State :=
  let a := u_id user in
  let b := userId rcpt in
  let c := resolved_conversation a b (conversations st) in
  mkState (connectedUsers st) (socket_user st)
          (save_lastMessage c (length (messages st))
             (with_conversation a b (conversations st)))
          (messages st ++ [mkMessage (length (messages st)) c a text]).

(** Several runs one after the other, each ended before the next begins. *)
Fixpoint send_each (succeeds : StoreOp -> bool)
    (sends : list (jsstring * jsstring * jsstring)) (st : State) : State :=
  match sends with
  | [] => st
  | (sock, toEmail, text) :: sends' =>
      send_each succeeds sends' (send_message succeeds sock toEmail text st).1.1
  end.

(** A send between the users [a] and [b], in either direction, by a
    socket authenticated in [st] to an email present in [st]. *)
Definition between (st : State) (a b : jsstring) (send : jsstring * jsstring * jsstring) : Prop :=
  exists user rcpt,
    socket_user st !! send.1.1 = Some user /\
    connectedUsers st !! send.1.2 = Some rcpt /\
    ((u_id user = a /\ userId rcpt = b) \/ (u_id user = b /\ userId rcpt = a)).

(** The number of conversations that hold both [a] and [b]. *)
Definition pair_count (a b : jsstring) (cs : list ConversationDoc) : nat :=
  length (List.filter (all_of a b) cs).

(** *** The event loop *)

(** The server between two events: its state and the suspended runs of
    [send_message]. *)
Record System : Type := mkSystem { state : State; pending : list Task }.

Definition boot : System := mkSystem initial [].

Inductive Input : Type :=
| Connect (sock : jsstring)
| Authenticate (sock token : jsstring)
| SendMessage (sock toEmail text : jsstring)
| Disconnect (sock : jsstring)
| StoreReply (n : nat) (ok : bool).   (* the operation of the [n]th suspended run settles *)

Definition step (i : Input) (sys : System) : System * list Emission :=
  match i with
  | Connect _ => (sys, [])
  | Authenticate sock token =>
      let '(st, out) := authenticate sock token (state sys) in
      (mkSystem st (pending sys), out)
  | SendMessage sock toEmail text =>
      match send_message_begin sock toEmail text (state sys) with
      | (out, Suspended t) => (mkSystem (state sys) (pending sys ++ [t]), out)
      | (out, Settled _) => (sys, out)
      end
  | Disconnect sock => (mkSystem (disconnect sock (state sys)) (pending sys), [])
  | StoreReply n ok =>
      match pending sys !! n with
      | None => (sys, [])
      | Some t =>
          match resume ok t (state sys) with
          | (st, out, Suspended t') => (mkSystem st (<[n := t']> (pending sys)), out)
          | (st, out, Settled _) => (mkSystem st (delete n (pending sys)), out)
          end
      end
  end.

Fixpoint run (inputs : list Input) (sys : System) : System * list Emission :=
  match inputs with
  | [] => (sys, [])
  | i :: inputs' =>
      let '(sys1, out1) := step i sys in
      let '(sys2, out2) := run inputs' sys1 in
      (sys2, out1 ++ out2)
  end.

End Handlers.

End AuthServer.

(** ** Concrete clients *)

Module Scenario.

Definition a_email : jsstring := js "a@x.com".
Definition b_email : jsstring := js "b@x.com".
Definition ghost_email : jsstring := js "ghost@x.com".

(** U+1F600 followed by [@x.com]: an email whose first character is a
    surrogate pair. *)
Definition grin_email : jsstring := [0xD83D; 0xDE00] ++ js "@x.com".

Definition s1 : jsstring := js "s1".
Definition s2 : jsstring := js "s2".
Definition s3 : jsstring := js "s3".

(** The user ids are strings of 24 hexadecimal digits, which the store casts
    to [ObjectId]. *)
Definition alice : AuthServer.User :=
  AuthServer.mkUser (js "64b7f0c2a1d3e4f5a6b7c8d1") a_email (js "user").
Definition bob : AuthServer.User :=
  AuthServer.mkUser (js "64b7f0c2a1d3e4f5a6b7c8d2") b_email (js "user").

Definition a_token : jsstring := js "token-a".
Definition b_token : jsstring := js "token-b".

(** A verifier that accepts the two tokens above and nothing else. *)
Definition verify (token : jsstring) : option AuthServer.User :=
  if decide (token = a_token) then Some alice
  else if decide (token = b_token) then Some bob
  else None.

(** A store in which every operation succeeds, and one in which the
    creation of the message fails. *)
Definition all_succeed (op : AuthServer.StoreOp) : bool := true.

Definition message_fails (op : AuthServer.StoreOp) : bool :=
  match op with AuthServer.OpMessageCreate => false | _ => true end.

(** Two sockets authenticate as the same user; the older one then closes. *)
Definition same_user_twice : list AuthServer.Input :=
  [AuthServer.Connect s1; AuthServer.Authenticate s1 a_token;
   AuthServer.Connect s2; AuthServer.Authenticate s2 a_token].

(** The two users are online, each on a socket. *)
Definition both_online : list AuthServer.Input :=
  [AuthServer.Connect s1; AuthServer.Authenticate s1 a_token;
   AuthServer.Connect s2; AuthServer.Authenticate s2 b_token].

(** The first user sends twice in a row; the second [findOne] is answered
    before the first [create] has run.  Every operation succeeds. *)
Definition two_quick_sends : list AuthServer.Input :=
  both_online ++
  [AuthServer.SendMessage s1 b_email (js "x");
   AuthServer.SendMessage s1 b_email (js "y");
   AuthServer.StoreReply 0 true;    (* first run: findOne, no conversation *)
   AuthServer.StoreReply 1 true;    (* second run: findOne, no conversation *)
   AuthServer.StoreReply 0 true;    (* first run: Conversation.create *)
   AuthServer.StoreReply 1 true;    (* second run: Conversation.create *)
   AuthServer.StoreReply 0 true;    (* first run: Message.create *)
   AuthServer.StoreReply 1 true;    (* second run: Message.create *)
   AuthServer.StoreReply 0 true;    (* first run: save, emit; the run ends *)
   AuthServer.StoreReply 0 true].   (* second run: save, emit; the run ends *)

(** The first user writes to herself, then to the second user; each run
    ends before the next event. *)
Definition self_then_other : list AuthServer.Input :=
  both_online ++
  [AuthServer.SendMessage s1 a_email (js "memo");
   AuthServer.StoreReply 0 true; AuthServer.StoreReply 0 true;
   AuthServer.StoreReply 0 true; AuthServer.StoreReply 0 true;
   AuthServer.SendMessage s1 b_email (js "hi");
   AuthServer.StoreReply 0 true; AuthServer.StoreReply 0 true;
   AuthServer.StoreReply 0 true; AuthServer.StoreReply 0 true].

(** The first user sends to the second, and her socket authenticates with
    the second user's token before the store has answered. *)
Definition reauthenticates_mid_send : list AuthServer.Input :=
  both_online ++
  [AuthServer.SendMessage s1 b_email (js "hi");
   AuthServer.Authenticate s1 b_token;
   AuthServer.StoreReply 0 true; AuthServer.StoreReply 0 true;
   AuthServer.StoreReply 0 true; AuthServer.StoreReply 0 true].

(** One socket authenticates as two users, then closes. *)
Definition two_identities : list AuthServer.Input :=
  [AuthServer.Connect s1; AuthServer.Authenticate s1 a_token;
   AuthServer.Authenticate s1 b_token; AuthServer.Disconnect s1].

(** The same on the server of [index.js]: one socket registers two emails,
    then closes. *)
Definition two_registrations : list TrieServer.Input :=
  [TrieServer.Connect s1; TrieServer.Register s1 a_email;
   TrieServer.Register s1 b_email; TrieServer.Disconnect s1].

(** A socket registers an email that starts with a surrogate pair, then
    closes. *)
Definition grin_registration : list TrieServer.Input :=
  [TrieServer.Connect s1; TrieServer.Register s1 grin_email; TrieServer.Disconnect s1].

(** Two clients of [index.js], and a message from the first to the second. *)
Definition hello : list TrieServer.Input :=
  [TrieServer.Connect s1; TrieServer.Register s1 a_email;
   TrieServer.Connect s2; TrieServer.Register s2 b_email;
   TrieServer.SendMessage s1 b_email (js "hi")].

End Scenario.

(** ** The shape of a trie *)

Module TrieShape.
Import TrieServer.

(** A node that ends no email and has no child: what [removeHelper] reports
    as prunable ([!node.isEndOfWord && Object.keys(node.children).length === 0]). *)
Definition blank (n : TrieNode) : bool :=
  negb (isEndOfWord n) && no_children (children n).

(** The node a path of keys leads to, when every key of the path is a child. *)
Fixpoint node_at (p : list jsstring) (n : TrieNode) : option TrieNode :=
  match p with
  | [] => Some n
  | c :: p' =>
      match children n !! c with
      | None => None
      | Some child => node_at p' child
      end
  end.

(** Along the path [p] from [n]: every node below [n] ends an email or has a
    child, and the node at the end, when there is one, carries a socket id
    exactly when it ends an email. *)
Fixpoint tidy_along (p : list jsstring) (n : TrieNode) : Prop :=
  match p with
  | [] => isEndOfWord n = true <-> is_Some (socketId n)
  | c :: p' =>
      match children n !! c with
      | None => True
      | Some child => blank child = false /\ tidy_along p' child
      end
  end.

Definition tidy (n : TrieNode) : Prop := forall p, tidy_along p n.

(** Along the path [p] from [n]: the same, and the node at the end of the
    path, when there is one, ends no email and carries no socket id. *)
Fixpoint free_along (p : list jsstring) (n : TrieNode) : Prop :=
  match p with
  | [] => isEndOfWord n = false /\ socketId n = None
  | c :: p' =>
      match children n !! c with
      | None => True
      | Some child => blank child = false /\ free_along p' child
      end
  end.

(** The trie and the map of the server hold the same binding for [e]. *)
Definition agree_on (e : jsstring) (st : Server) : Prop :=
  search e (trie st) = map_get e (emailToSocket st).

End TrieShape.

(** ** The shape of the store *)

Module StoreShape.
Import AuthServer.

(** The two collections are consistent: the [_id] of a document is its
    position, a conversation has two participants and its [lastMessage],
    when set, is a stored message of that conversation; a message belongs to
    a stored conversation of which its sender is a participant. *)
Definition store_ok (st : State) : Prop :=
  (forall i c, conversations st !! i = Some c ->
     conv_id c = i /\ length (participants c) = 2%nat /\
     forall m, lastMessage c = Some m ->
       exists msg, messages st !! m = Some msg /\ conversation msg = i) /\
  (forall j msg, messages st !! j = Some msg ->
     msg_id msg = j /\
     exists c, conversations st !! conversation msg = Some c /\ sender msg ∈ participants c).

(** What a suspended run relies on: its socket has a [user], and the
    documents it holds the ids of are in the store. *)
Definition task_ok (st : State) (t : Task) : Prop :=
  is_Some (socket_user st !! task_socket t) /\
  match awaited t with
  | FindOne | ConversationCreate => True
  | MessageCreate c =>
      exists d, conversations st !! c = Some d /\ senderId t ∈ participants d
  | Save c m =>
      exists d msg, conversations st !! c = Some d /\
                    messages st !! m = Some msg /\
                    conversation msg = c /\ content msg = task_content t
  end.

Definition system_ok (sys : System) : Prop :=
  store_ok (state sys) /\ Forall (task_ok (state sys)) (pending sys).

(** [st'] continues [st]: no socket lost its [user], every conversation is
    still there with its id and participants, and the messages of [st] are
    the first messages of [st']. *)
Definition continues (st st' : State) : Prop :=
  (forall s, is_Some (socket_user st !! s) -> is_Some (socket_user st' !! s)) /\
  (forall i c, conversations st !! i = Some c ->
     exists c', conversations st' !! i = Some c' /\
                conv_id c' = conv_id c /\ participants c' = participants c) /\
  messages st `prefix_of` messages st'.

End StoreShape.

(** ** Where an emitted event comes from *)

Module Provenance.
Import AuthServer.

Section Trace.

Variable check : jsstring -> option User.




End Trace.

End Provenance.

(** * Properties *)

(** ** Strings *)

Module JsStringFacts.

Lemma chars_cons_cons (u v : N) (rest : jsstring) :
  chars (u :: v :: rest) =
  if is_lead_surrogate u && is_trail_surrogate v
  then [u; v] :: chars rest else [u] :: chars (v :: rest).
Proof. reflexivity. Qed.

Lemma concat_chars (s : jsstring) : concat (chars s) = s.
Proof.
  remember (length s) as n eqn:Hn.
  revert s Hn. induction n as [n IH] using lt_wf_ind. intros s Hn.
  destruct s as [|u [|v rest]]; [reflexivity | reflexivity |].
  rewrite chars_cons_cons.
  destruct (is_lead_surrogate u && is_trail_surrogate v).
  - rewrite concat_cons. cbn [app]. f_equal. f_equal.
    apply (IH (length rest)); [subst n; cbn; lia | reflexivity].
  - rewrite concat_cons. cbn [app]. f_equal.
    apply (IH (length (v :: rest))); [subst n; cbn; lia | reflexivity].
Qed.

Lemma concat_units (s : jsstring) : concat (units s) = s.
Proof.
  induction s as [|u s IH]; [reflexivity|].
  unfold units in *. cbn. by rewrite IH.
Qed.

Lemma chars_inj (s1 s2 : jsstring) : chars s1 = chars s2 -> s1 = s2.
Proof. intros H. rewrite <- (concat_chars s1), <- (concat_chars s2). by rewrite H. Qed.

Lemma chars_units_inj (s1 s2 : jsstring) : chars s1 = units s2 -> s1 = s2.
Proof. intros H. rewrite <- (concat_chars s1), <- (concat_units s2). by rewrite H. Qed.

Lemma pair_free_chars (s : jsstring) : pair_free s = true -> chars s = units s.
Proof.
  induction s as [|u s IH]; [reflexivity|].
  destruct s as [|v rest]; [reflexivity|].
  intros H. cbn [pair_free] in H. apply andb_true_iff in H as [Hp Hrest].
  apply negb_true_iff in Hp.
  rewrite chars_cons_cons, Hp, (IH Hrest). reflexivity.
Qed.

End JsStringFacts.

Export JsStringFacts.

(** ** The trie of [src/index.js] *)

Module TrieFacts.
Import TrieServer.

Lemma no_children_spec (kids : gmap jsstring TrieNode) :
  no_children kids = true <-> kids = ∅.
Proof.
  unfold no_children. rewrite bool_decide_eq_true. apply map_size_empty_iff.
Qed.

Lemma search_from_blank (q : list jsstring) (n : TrieNode) :
  children n = ∅ -> isEndOfWord n = false -> search_from q n = None.
Proof.
  intros Hk He. destruct q as [|c q]; cbn.
  - by rewrite He.
  - by rewrite Hk, lookup_empty.
Qed.

Lemma search_from_new (q : list jsstring) : search_from q newTrieNode = None.
Proof. by apply search_from_blank. Qed.

(** [insert] then [search], on any node and along any two paths. *)
Lemma search_insert_from (p : list jsstring) (sid : jsstring) :
  forall (q : list jsstring) (n : TrieNode),
    search_from q (insert_from p sid n) =
    if decide (q = p) then Some sid else search_from q n.
Proof.
  induction p as [|c p IH]; intros q n.
  - destruct q as [|c' q]; cbn; [by rewrite decide_True|].
    by rewrite decide_False.
  - destruct q as [|c' q]; cbn [insert_from search_from children isEndOfWord socketId].
    + by rewrite decide_False.
    + destruct (decide (c' = c)) as [->|Hc].
      * rewrite lookup_insert_eq, IH.
        destruct (decide (q = p)) as [->|Hq].
        -- by rewrite decide_True.
        -- rewrite decide_False by congruence.
           destruct (children n !! c); cbn; [done | apply search_from_new].
      * rewrite lookup_insert_ne by done.
        by rewrite decide_False by congruence.
Qed.

(** What [removeHelper] does to a node, whatever the node: the searches
    along other paths are untouched, the search along the removed path
    finds nothing, and a node reported as prunable is blank. *)
Lemma removeHelper_spec (p : list jsstring) :
  forall n : TrieNode,
    (forall q, q <> p ->
       search_from q (removeHelper p n).2 = search_from q n) /\
    search_from p (removeHelper p n).2 = None /\
    ((removeHelper p n).1 = true ->
       children (removeHelper p n).2 = ∅ /\ isEndOfWord (removeHelper p n).2 = false).
Proof.
  induction p as [|c p IH]; intros n.
  - cbn [removeHelper]. destruct (isEndOfWord n) eqn:He; cbn.
    + split; [|split].
      * intros [|c q] Hq; [done | reflexivity].
      * reflexivity.
      * intros Hk. by apply no_children_spec in Hk.
    + split; [|split]; [done | by rewrite He | done].
  - cbn [removeHelper]. destruct (children n !! c) as [child|] eqn:Hc; cbn.
    2:{ split; [|split]; [done | by rewrite Hc | done]. }
    destruct (IH child) as (Hframe & Hsame & Hblank).
    destruct (removeHelper p child) as [prune child'] eqn:Hr. cbn in *.
    destruct prune; cbn.
    + destruct (Hblank eq_refl) as [Hk He].
      split; [|split].
      * intros [|c' q] Hq; cbn; [done|].
        destruct (decide (c' = c)) as [->|Hne].
        -- rewrite lookup_delete_eq, Hc.
           rewrite <- (Hframe q) by congruence.
           symmetry. by apply search_from_blank.
        -- by rewrite lookup_delete_ne.
      * by rewrite lookup_delete_eq.
      * intros H. apply andb_true_iff in H as [H1 H2].
        apply negb_true_iff in H1. by apply no_children_spec in H2.
    + split; [|split].
      * intros [|c' q] Hq; cbn; [done|].
        destruct (decide (c' = c)) as [->|Hne].
        -- rewrite lookup_insert_eq, Hc. apply Hframe. congruence.
        -- by rewrite lookup_insert_ne.
      * by rewrite lookup_insert_eq.
      * done.
Qed.

(** [search] after [insert]: the trie is a map from emails to socket ids. *)
Lemma search_insert (e e' s : jsstring) (t : Trie) :
  search e' (insert e s t) = if decide (e' = e) then Some s else search e' t.
Proof.
  unfold search, insert. cbn. rewrite search_insert_from.
  destruct (decide (e' = e)) as [->|Hne]; [by rewrite decide_True|].
  rewrite decide_False; [done|]. intros H. by apply chars_inj in H.
Qed.

Lemma search_newTrie (e : jsstring) : search e newTrie = None.
Proof. apply search_from_new. Qed.

(** [remove] never touches the entry of another email. *)
Lemma search_remove_other (e1 e2 : jsstring) (t : Trie) :
  e2 <> e1 -> search e2 (remove e1 t) = search e2 t.
Proof.
  intros Hne. unfold search, remove. cbn.
  apply (removeHelper_spec (units e1) (root t)).
  intros H. by apply chars_units_inj in H.
Qed.

(** [remove] deletes the entry of an email without surrogate pairs. *)
Lemma search_remove_same (e : jsstring) (t : Trie) :
  pair_free e = true -> search e (remove e t) = None.
Proof.
  intros Hp. unfold search, remove. cbn. rewrite (pair_free_chars e Hp).
  apply (removeHelper_spec (units e) (root t)).
Qed.

(** In any case [remove] adds nothing. *)
Lemma search_remove_Some (e1 e2 s : jsstring) (t : Trie) :
  search e2 (remove e1 t) = Some s -> search e2 t = Some s.
Proof.
  unfold search, remove. cbn. intros H.
  destruct (decide (chars e2 = units e1)) as [Heq|Hne].
  - rewrite Heq in H.
    by rewrite (proj1 (proj2 (removeHelper_spec (units e1) (root t)))) in H.
  - by rewrite (proj1 (removeHelper_spec (units e1) (root t))) in H.
Qed.

End TrieFacts.

(** ** The server of [src/index.js] *)

Module TrieServerFacts.
Import TrieServer TrieFacts.

Lemma map_set_elem (k v : jsstring) (m : list (jsstring * jsstring)) (k' v' : jsstring) :
  NoDup m.*1 -> (k', v') ∈ map_set k v m ->
  (k' = k /\ v' = v) \/ (k' <> k /\ (k', v') ∈ m).
Proof.
  induction m as [|[k0 v0] m IH]; intros Hnd Hin; cbn in *.
  - apply elem_of_cons in Hin as [Hin|Hin]; [left; by inversion Hin|].
    by apply elem_of_nil in Hin.
  - apply NoDup_cons in Hnd as [Hk0 Hnd].
    destruct (decide (k0 = k)) as [->|Hne].
    + apply elem_of_cons in Hin as [Hin|Hin]; [left; by inversion Hin|].
      right. split; [|by apply list_elem_of_further].
      intros ->. apply Hk0. apply list_elem_of_fmap. by exists (k, v').
    + apply elem_of_cons in Hin as [Hin|Hin].
      * inversion Hin; subst. right. split; [done | apply list_elem_of_here].
      * destruct (IH Hnd Hin) as [?|[? ?]]; [by left|].
        right. split; [done | by apply list_elem_of_further].
Qed.

Lemma map_set_keys (k v : jsstring) (m : list (jsstring * jsstring)) (k' : jsstring) :
  k' ∈ (map_set k v m).*1 -> k' = k \/ k' ∈ m.*1.
Proof.
  induction m as [|[k0 v0] m IH]; cbn; intros Hin.
  - apply elem_of_cons in Hin as [->|Hin]; [by left | by right].
  - destruct (decide (k0 = k)) as [->|Hne]; cbn in Hin.
    + by right.
    + apply elem_of_cons in Hin as [->|Hin]; [right; apply list_elem_of_here|].
      destruct (IH Hin) as [->|?]; [by left|]. right. by apply list_elem_of_further.
Qed.

Lemma map_set_NoDup (k v : jsstring) (m : list (jsstring * jsstring)) :
  NoDup m.*1 -> NoDup (map_set k v m).*1.
Proof.
  induction m as [|[k0 v0] m IH]; intros Hnd; cbn.
  - apply NoDup_cons. split; [apply not_elem_of_nil | apply NoDup_nil_2].
  - cbn in Hnd. apply NoDup_cons in Hnd as [Hk0 Hnd].
    destruct (decide (k0 = k)) as [->|Hne]; cbn.
    + by apply NoDup_cons.
    + apply NoDup_cons. split; [|by apply IH].
      intros Hin. apply map_set_keys in Hin as [->|Hin]; done.
Qed.

Lemma map_set_here (k v : jsstring) (m : list (jsstring * jsstring)) :
  (k, v) ∈ map_set k v m.
Proof.
  induction m as [|[k0 v0] m IH]; cbn; [apply list_elem_of_here|].
  destruct (decide (k0 = k)); [apply list_elem_of_here | by apply list_elem_of_further].
Qed.

Lemma map_delete_elem (k : jsstring) (m : list (jsstring * jsstring)) (k' v' : jsstring) :
  (k', v') ∈ map_delete k m <-> k' <> k /\ (k', v') ∈ m.
Proof. unfold map_delete. by rewrite list_elem_of_filter. Qed.

Lemma map_delete_NoDup (k : jsstring) (m : list (jsstring * jsstring)) :
  NoDup m.*1 -> NoDup (map_delete k m).*1.
Proof.
  unfold map_delete. induction m as [|[k0 v0] m IH]; intros Hnd; [done|].
  cbn in Hnd. apply NoDup_cons in Hnd as [Hk0 Hnd].
  rewrite filter_cons. case_decide; [|by apply IH].
  cbn. apply NoDup_cons. split; [|by apply IH].
  intros Hin. apply Hk0. apply list_elem_of_fmap in Hin as ([k1 v1] & -> & Hin).
  apply list_elem_of_filter in Hin as [_ Hin].
  apply list_elem_of_fmap. by exists (k1, v1).
Qed.

Lemma find_socket (sock : jsstring) (m : list (jsstring * jsstring)) (e x : jsstring) :
  List.find (fun kv => bool_decide (kv.2 = sock)) m = Some (e, x) ->
  x = sock /\ (e, sock) ∈ m.
Proof.
  intros H. apply find_some in H as [Hin Hx].
  apply bool_decide_eq_true in Hx. cbn in Hx. subst x.
  split; [done | by apply list_elem_of_In].
Qed.

Lemma mirrored_initial : mirrored initial.
Proof.
  split; [apply NoDup_nil_2|]. intros e s H. by apply elem_of_nil in H.
Qed.

Lemma mirrored_register (sock email : jsstring) (st : Server) :
  mirrored st -> mirrored (register sock email st).
Proof.
  intros [Hnd Hm]. split; cbn.
  - by apply map_set_NoDup.
  - intros e s Hin. rewrite search_insert.
    apply map_set_elem in Hin as [[-> ->]|[Hne Hin]]; [by rewrite decide_True | |done].
    rewrite decide_False by done. by apply Hm.
Qed.

Lemma mirrored_disconnect (sock : jsstring) (st : Server) :
  mirrored st -> mirrored (disconnect sock st).
Proof.
  intros [Hnd Hm]. unfold disconnect.
  destruct (List.find _ _) as [[email x]|] eqn:Hf; [|done].
  split; cbn.
  - by apply map_delete_NoDup.
  - intros e s Hin. apply map_delete_elem in Hin as [Hne Hin].
    rewrite search_remove_other by done. by apply Hm.
Qed.

Lemma mirrored_step (i : Input) (st : Server) : mirrored st -> mirrored (step i st).1.
Proof.
  destruct i; cbn; [done | apply mirrored_register | done | apply mirrored_disconnect].
Qed.

Lemma mirrored_run (inputs : list Input) :
  forall st, mirrored st -> mirrored (run inputs st).1.
Proof.
  induction inputs as [|i inputs IH]; intros st Hm; [done|].
  cbn. destruct (step i st) as [st1 out1] eqn:Hs.
  specialize (IH st1). destruct (run inputs st1) as [st2 out2]. cbn.
  apply IH. change st1 with (st1, out1).1. rewrite <- Hs. by apply mirrored_step.
Qed.

(** The handler of [index.js] compares the socket id before it removes: a
    disconnect of [h1] keeps an entry that points at another socket. *)
Lemma disconnect_keeps_other_socket (st : Server) (e h1 h2 : jsstring) :
  mirrored st -> search e (trie st) = Some h2 -> h1 <> h2 ->
  search e (trie (disconnect h1 st)) = Some h2.
Proof.
  intros [Hnd Hm] He Hne. unfold disconnect.
  destruct (List.find _ _) as [[email x]|] eqn:Hf; [|done].
  apply find_socket in Hf as [-> Hin]. cbn.
  rewrite search_remove_other; [done|].
  intros ->. apply Hm in Hin. congruence.
Qed.

(** A second run of the handler for the same socket keeps it as well. *)
Lemma disconnect_twice_keeps_other_socket (st : Server) (e h1 h2 : jsstring) :
  mirrored st -> search e (trie st) = Some h2 -> h1 <> h2 ->
  search e (trie (disconnect h1 (disconnect h1 st))) = Some h2.
Proof.
  intros Hm He Hne.
  apply disconnect_keeps_other_socket; [by apply mirrored_disconnect | | done].
  by apply disconnect_keeps_other_socket.
Qed.

(** The entry the handler picks is gone from the trie afterwards, when its
    email has no surrogate pair. *)
Lemma disconnect_removes_first_entry (st : Server) (sock e x : jsstring) :
  List.find (fun kv => bool_decide (kv.2 = sock)) (emailToSocket st) = Some (e, x) ->
  pair_free e = true ->
  search e (trie (disconnect sock st)) = None.
Proof.
  intros Hf Hp. unfold disconnect. rewrite Hf. cbn. by apply search_remove_same.
Qed.

End TrieServerFacts.

(** ** The authenticated server of [src/unnamed/part_000] *)

Module AuthFacts.
Import AuthServer.

(** *** One run of [send_message] *)

Lemma resume_failed (t : Task) (st : State) :
  resume false t st = (st, [], Settled Rejected).
Proof. reflexivity. Qed.

(** A suspended run leaves the directory and the sockets alone. *)
Lemma resume_presence (ok : bool) (t : Task) (st : State) :
  connectedUsers (resume ok t st).1.1 = connectedUsers st /\
  socket_user (resume ok t st).1.1 = socket_user st.
Proof.
  unfold resume. destruct ok; cbn; [|done].
  destruct (awaited t); cbn; try done.
  - by destruct (findOne _ _ _).
  - by destruct (socket_user st !! task_socket t).
Qed.

Lemma send_message_succeeds (succeeds : StoreOp -> bool)
    (sock toEmail text : jsstring) (st : State) (user : User) (rcpt : Presence) :
  socket_user st !! sock = Some user ->
  connectedUsers st !! toEmail = Some rcpt ->
  (forall op, succeeds op = true) ->
  send_message succeeds sock toEmail text st =
  (after_send user rcpt text st,
   [EmitTo (socketId rcpt) (receive_message (u_email user) text)],
   Settled Resolved).
Proof.
  intros Hu Hr Hok. unfold send_message, send_message_begin. rewrite Hu, Hr.
  unfold after_send, resolved_conversation, with_conversation.
  unfold run_task, resume, await, conversation_create, message_create.
  cbn -[lookup findOne save_lastMessage]. rewrite !Hok.
  cbn -[lookup findOne save_lastMessage].
  destruct (findOne (u_id user) (userId rcpt) (conversations st)) as [c|] eqn:Hf;
    cbn -[lookup findOne save_lastMessage]; rewrite ?Hok;
    cbn -[lookup findOne save_lastMessage]; rewrite ?Hok;
    cbn -[lookup findOne save_lastMessage]; rewrite ?Hok;
    cbn -[lookup findOne save_lastMessage]; rewrite Hu; reflexivity.
Qed.

Ltac run_send Hu Hr :=
  unfold send_message, send_message_begin; rewrite Hu, Hr;
  unfold run_task, resume, await, conversation_create, message_create;
  cbn -[lookup findOne save_lastMessage].

(** A run in which an operation fails emits nothing at all and rejects. *)
Lemma send_message_fails (succeeds : StoreOp -> bool)
    (sock toEmail text : jsstring) (st : State) (user : User) (rcpt : Presence) (op : StoreOp) :
  socket_user st !! sock = Some user ->
  connectedUsers st !! toEmail = Some rcpt ->
  op ∈ attempted (u_id user) (userId rcpt) st ->
  succeeds op = false ->
  (send_message succeeds sock toEmail text st).1.2 = [] /\
  (send_message succeeds sock toEmail text st).2 = Settled Rejected.
Proof.
  intros Hu Hr Hop Hfail. unfold attempted in Hop. run_send Hu Hr.
  destruct (succeeds OpFindOne) eqn:H1; cbn -[lookup findOne save_lastMessage]; [|done].
  destruct (findOne (u_id user) (userId rcpt) (conversations st)) as [c|] eqn:Hf;
    cbn -[lookup findOne save_lastMessage].
  - destruct (succeeds OpMessageCreate) eqn:H3; cbn -[lookup findOne save_lastMessage]; [|done].
    destruct (succeeds OpSave) eqn:H4; cbn -[lookup findOne save_lastMessage]; [|done].
    exfalso. repeat (apply elem_of_cons in Hop as [->|Hop]; [congruence|]).
    by apply elem_of_nil in Hop.
  - destruct (succeeds OpConversationCreate) eqn:H2;
      cbn -[lookup findOne save_lastMessage]; [|done].
    destruct (succeeds OpMessageCreate) eqn:H3; cbn -[lookup findOne save_lastMessage]; [|done].
    destruct (succeeds OpSave) eqn:H4; cbn -[lookup findOne save_lastMessage]; [|done].
    exfalso. repeat (apply elem_of_cons in Hop as [->|Hop]; [congruence|]).
    by apply elem_of_nil in Hop.
Qed.

(** A run that emits anything has performed every operation. *)
Lemma send_message_emits (succeeds : StoreOp -> bool)
    (sock toEmail text : jsstring) (st : State) (user : User) (rcpt : Presence) :
  socket_user st !! sock = Some user ->
  connectedUsers st !! toEmail = Some rcpt ->
  (send_message succeeds sock toEmail text st).1.2 <> [] ->
  send_message succeeds sock toEmail text st =
  (after_send user rcpt text st,
   [EmitTo (socketId rcpt) (receive_message (u_email user) text)],
   Settled Resolved).
Proof.
  intros Hu Hr. unfold after_send, resolved_conversation, with_conversation. run_send Hu Hr.
  destruct (succeeds OpFindOne) eqn:H1; cbn -[lookup findOne save_lastMessage]; [|done].
  destruct (findOne (u_id user) (userId rcpt) (conversations st)) as [c|] eqn:Hf;
    cbn -[lookup findOne save_lastMessage].
  - destruct (succeeds OpMessageCreate) eqn:H3; cbn -[lookup findOne save_lastMessage]; [|done].
    destruct (succeeds OpSave) eqn:H4; cbn -[lookup findOne save_lastMessage]; [|done].
    by rewrite Hu.
  - destruct (succeeds OpConversationCreate) eqn:H2;
      cbn -[lookup findOne save_lastMessage]; [|done].
    destruct (succeeds OpMessageCreate) eqn:H3; cbn -[lookup findOne save_lastMessage]; [|done].
    destruct (succeeds OpSave) eqn:H4; cbn -[lookup findOne save_lastMessage]; [|done].
    by rewrite Hu.
Qed.

(** Every run of the handler comes to an end. *)
Lemma send_message_settles (succeeds : StoreOp -> bool)
    (sock toEmail text : jsstring) (st : State) :
  exists o, (send_message succeeds sock toEmail text st).2 = Settled o.
Proof.
  unfold send_message, send_message_begin.
  destruct (socket_user st !! sock) as [user|] eqn:Hu; [|by eexists].
  destruct (connectedUsers st !! toEmail) as [rcpt|]; [|by eexists].
  unfold run_task, resume, await, conversation_create, message_create.
  cbn -[lookup findOne save_lastMessage].
  destruct (succeeds OpFindOne); cbn -[lookup findOne save_lastMessage]; [|by eexists].
  destruct (findOne (u_id user) (userId rcpt) (conversations st));
    cbn -[lookup findOne save_lastMessage].
  - destruct (succeeds OpMessageCreate); cbn -[lookup findOne save_lastMessage]; [|by eexists].
    destruct (succeeds OpSave); cbn -[lookup findOne save_lastMessage]; [|by eexists].
    rewrite Hu. by eexists.
  - destruct (succeeds OpConversationCreate);
      cbn -[lookup findOne save_lastMessage]; [|by eexists].
    destruct (succeeds OpMessageCreate); cbn -[lookup findOne save_lastMessage]; [|by eexists].
    destruct (succeeds OpSave); cbn -[lookup findOne save_lastMessage]; [|by eexists].
    rewrite Hu. by eexists.
Qed.

(** The store after a successful run holds the message, and its
    conversation points at it. *)
Lemma save_lastMessage_elem (c m : nat) (cs : list ConversationDoc) (d : ConversationDoc) :
  d ∈ cs -> conv_id d = c ->
  mkConversation c (participants d) (Some m) ∈ save_lastMessage c m cs.
Proof.
  intros Hd Hc. unfold save_lastMessage. apply list_elem_of_fmap.
  exists d. split; [|done]. rewrite decide_True by done. by rewrite Hc.
Qed.

Lemma findOne_Some (a b : jsstring) (cs : list ConversationDoc) (c : ConversationDoc) :
  findOne a b cs = Some c -> c ∈ cs /\ all_of a b c = true.
Proof.
  unfold findOne. intros H. apply find_some in H as [H1 H2].
  split; [by apply list_elem_of_In | done].
Qed.

Lemma after_send_persisted (user : User) (rcpt : Presence) (text : jsstring) (st : State) :
  let st' := after_send user rcpt text st in
  let m := length (messages st) in
  let c := resolved_conversation (u_id user) (userId rcpt) (conversations st) in
  messages st' = messages st ++ [mkMessage m c (u_id user) text] /\
  exists d, d ∈ conversations st' /\ conv_id d = c /\ lastMessage d = Some m /\
            u_id user ∈ participants d /\ userId rcpt ∈ participants d.
Proof.
  cbn. split; [done|].
  unfold resolved_conversation, with_conversation.
  destruct (findOne (u_id user) (userId rcpt) (conversations st)) as [c|] eqn:Hf.
  - apply findOne_Some in Hf as [Hin Hall].
    unfold all_of in Hall. apply andb_true_iff in Hall as [Ha Hb].
    apply bool_decide_eq_true in Ha, Hb.
    eexists. split; [by apply (save_lastMessage_elem _ _ _ c)|]. by cbn.
  - eexists. split.
    + apply (save_lastMessage_elem _ _ _
               (mkConversation (length (conversations st)) [u_id user; userId rcpt] None));
        [|done].
      apply elem_of_app. right. apply list_elem_of_here.
    + cbn. repeat split; [apply list_elem_of_here|].
      apply list_elem_of_further, list_elem_of_here.
Qed.

(** *** Find-or-create, one run after the other *)

Lemma all_of_comm (a b : jsstring) (c : ConversationDoc) : all_of a b c = all_of b a c.
Proof. unfold all_of. apply andb_comm. Qed.

Lemma all_of_same (a : jsstring) (c : ConversationDoc) :
  all_of a a c = bool_decide (a ∈ participants c).
Proof. unfold all_of. apply andb_diag. Qed.

Lemma findOne_comm (a b : jsstring) (cs : list ConversationDoc) :
  findOne a b cs = findOne b a cs.
Proof.
  unfold findOne. induction cs as [|c cs IH]; [done|].
  cbn. by rewrite (all_of_comm a b c), IH.
Qed.

Lemma pair_count_comm (a b : jsstring) (cs : list ConversationDoc) :
  pair_count a b cs = pair_count b a cs.
Proof.
  unfold pair_count. induction cs as [|c cs IH]; [done|].
  cbn. rewrite (all_of_comm a b c). destruct (all_of b a c); cbn; by rewrite IH.
Qed.

Lemma all_of_saved (x y : jsstring) (c m : nat) (d : ConversationDoc) :
  all_of x y (if decide (conv_id d = c)
              then mkConversation (conv_id d) (participants d) (Some m) else d)
  = all_of x y d.
Proof. by destruct (decide (conv_id d = c)). Qed.

Lemma pair_count_save (x y : jsstring) (c m : nat) (cs : list ConversationDoc) :
  pair_count x y (save_lastMessage c m cs) = pair_count x y cs.
Proof.
  unfold pair_count, save_lastMessage. induction cs as [|d cs IH]; [done|].
  cbn [fmap list_fmap List.filter]. rewrite all_of_saved.
  destruct (all_of x y d); cbn [length]; by rewrite IH.
Qed.

Lemma findOne_save (x y : jsstring) (c m : nat) (cs : list ConversationDoc) :
  conv_id <$> findOne x y (save_lastMessage c m cs) = conv_id <$> findOne x y cs.
Proof.
  unfold findOne, save_lastMessage. induction cs as [|d cs IH]; [done|].
  cbn [fmap list_fmap List.find]. rewrite all_of_saved.
  destruct (all_of x y d); [|done].
  by destruct (decide (conv_id d = c)).
Qed.

Lemma pair_count_app (x y : jsstring) (cs : list ConversationDoc) (d : ConversationDoc) :
  pair_count x y (cs ++ [d]) = (pair_count x y cs + if all_of x y d then 1 else 0)%nat.
Proof.
  unfold pair_count. rewrite List.filter_app, length_app. cbn.
  by destruct (all_of x y d).
Qed.

Lemma findOne_None_count (x y : jsstring) (cs : list ConversationDoc) :
  findOne x y cs = None -> pair_count x y cs = 0%nat.
Proof.
  unfold findOne, pair_count. induction cs as [|d cs IH]; [done|].
  cbn. destruct (all_of x y d); [done | exact IH].
Qed.

Lemma findOne_Some_count (x y : jsstring) (cs : list ConversationDoc) (d : ConversationDoc) :
  findOne x y cs = Some d -> (1 <= pair_count x y cs)%nat.
Proof.
  unfold findOne, pair_count. induction cs as [|d' cs IH]; [done|].
  cbn. destruct (all_of x y d'); cbn; [lia | exact IH].
Qed.

Lemma findOne_app_Some (x y : jsstring) (cs : list ConversationDoc) (d e : ConversationDoc) :
  findOne x y cs = Some d -> findOne x y (cs ++ [e]) = Some d.
Proof.
  unfold findOne. induction cs as [|d' cs IH]; [done|].
  cbn. destruct (all_of x y d'); [done | exact IH].
Qed.

Lemma findOne_app_None (x y : jsstring) (cs : list ConversationDoc) (e : ConversationDoc) :
  findOne x y cs = None -> all_of x y e = true -> findOne x y (cs ++ [e]) = Some e.
Proof.
  unfold findOne. intros Hn He. induction cs as [|d' cs IH]; cbn.
  - by rewrite He.
  - cbn in Hn. destruct (all_of x y d'); [done | by apply IH].
Qed.

Lemma all_of_two (x y a b : jsstring) (d : ConversationDoc) :
  participants d = [a; b] -> x <> y -> all_of x y d = true ->
  (x = a /\ y = b) \/ (x = b /\ y = a).
Proof.
  intros Hd Hne H. unfold all_of in H. rewrite Hd in H.
  apply andb_true_iff in H as [Hx Hy]. apply bool_decide_eq_true in Hx, Hy.
  apply elem_of_cons in Hx as [->|Hx]; apply elem_of_cons in Hy as [->|Hy]; try done.
  - apply elem_of_cons in Hy as [->|Hy]; [by left | by apply elem_of_nil in Hy].
  - apply elem_of_cons in Hx as [->|Hx]; [by right | by apply elem_of_nil in Hx].
  - apply elem_of_cons in Hx as [->|Hx]; [|by apply elem_of_nil in Hx].
    apply elem_of_cons in Hy as [->|Hy]; [done | by apply elem_of_nil in Hy].
Qed.

Lemma all_of_both (a b : jsstring) (d : ConversationDoc) :
  participants d = [a; b] -> all_of a b d = true.
Proof.
  intros Hd. unfold all_of. rewrite Hd. apply andb_true_iff.
  split; apply bool_decide_eq_true;
    [apply list_elem_of_here | apply list_elem_of_further, list_elem_of_here].
Qed.

(** A run never makes a second conversation for a pair of distinct users. *)
Lemma after_send_unique (user : User) (rcpt : Presence) (text : jsstring) (st : State)
    (x y : jsstring) :
  x <> y ->
  (pair_count x y (conversations st) <= 1)%nat ->
  (pair_count x y (conversations (after_send user rcpt text st)) <= 1)%nat.
Proof.
  intros Hne Hle. unfold after_send. cbn [conversations].
  rewrite pair_count_save. unfold with_conversation.
  destruct (findOne (u_id user) (userId rcpt) (conversations st)) eqn:Hf; [done|].
  rewrite pair_count_app.
  destruct (all_of x y _) eqn:Hall; [|lia].
  apply (all_of_two x y (u_id user) (userId rcpt)) in Hall as [[-> ->]|[-> ->]]; try done.
  - rewrite (findOne_None_count _ _ _ Hf). lia.
  - rewrite pair_count_comm, (findOne_None_count _ _ _ Hf). lia.
Qed.

(** After a run between [a] and [b] there is exactly one conversation of
    the pair, and it is the one the message went to. *)
Lemma after_send_pair (user : User) (rcpt : Presence) (text : jsstring) (st : State)
    (a b : jsstring) :
  (u_id user = a /\ userId rcpt = b) \/ (u_id user = b /\ userId rcpt = a) ->
  (pair_count a b (conversations st) <= 1)%nat ->
  let k := resolved_conversation (u_id user) (userId rcpt) (conversations st) in
  pair_count a b (conversations (after_send user rcpt text st)) = 1%nat /\
  conv_id <$> findOne a b (conversations (after_send user rcpt text st)) = Some k.
Proof.
  intros Hdir Hle. unfold after_send. cbn [conversations].
  rewrite pair_count_save, findOne_save.
  unfold with_conversation, resolved_conversation.
  assert (findOne (u_id user) (userId rcpt) (conversations st)
          = findOne a b (conversations st)) as Hsame.
  { destruct Hdir as [[-> ->]|[-> ->]]; [done | apply findOne_comm]. }
  rewrite Hsame.
  destruct (findOne a b (conversations st)) as [d|] eqn:Hf.
  - split; [|by rewrite Hf]. apply findOne_Some_count in Hf. lia.
  - set (new := mkConversation _ _ _).
    assert (all_of a b new = true) as Hnew.
    { destruct Hdir as [[<- <-]|[<- <-]]; [by apply all_of_both|].
      rewrite all_of_comm. by apply all_of_both. }
    rewrite pair_count_app, Hnew, (findOne_None_count _ _ _ Hf).
    split; [done|]. by rewrite (findOne_app_None _ _ _ _ Hf Hnew).
Qed.

Lemma between_presence (st st' : State) (a b : jsstring) send :
  socket_user st' = socket_user st -> connectedUsers st' = connectedUsers st ->
  between st a b send -> between st' a b send.
Proof. unfold between. intros -> ->. done. Qed.

Lemma send_each_established (succeeds : StoreOp -> bool) (a b : jsstring) (k : nat)
    (sends : list (jsstring * jsstring * jsstring)) :
  (forall op, succeeds op = true) ->
  forall st : State,
    Forall (between st a b) sends ->
    pair_count a b (conversations st) = 1%nat ->
    conv_id <$> findOne a b (conversations st) = Some k ->
    let st' := send_each succeeds sends st in
    pair_count a b (conversations st') = 1%nat /\
    conv_id <$> findOne a b (conversations st') = Some k /\
    exists new, messages st' = messages st ++ new /\
                length new = length sends /\
                Forall (fun m => conversation m = k) new.
Proof.
  intros Hok. induction sends as [|[[sock toEmail] text] sends IH]; intros st Hall Hone Hk.
  - cbn. repeat split; try done. exists []. by rewrite app_nil_r.
  - apply Forall_cons in Hall as [Hhd Htl].
    destruct Hhd as (user & rcpt & Hu & Hr & Hdir). cbn in Hu, Hr.
    cbn [send_each].
    rewrite (send_message_succeeds succeeds sock toEmail text st user rcpt Hu Hr Hok).
    cbn [fst].
    assert (resolved_conversation (u_id user) (userId rcpt) (conversations st) = k) as Hres.
    { unfold resolved_conversation.
      replace (findOne (u_id user) (userId rcpt) (conversations st))
        with (findOne a b (conversations st))
        by (destruct Hdir as [[-> ->]|[-> ->]]; [done | apply findOne_comm]).
      destruct (findOne a b (conversations st)); by inversion Hk. }
    destruct (after_send_pair user rcpt text st a b Hdir) as [Hone' Hk']; [lia|].
    rewrite Hres in Hk'.
    assert (Forall (between (after_send user rcpt text st) a b) sends) as Htl'.
    { eapply Forall_impl; [exact Htl|]. intros send. by apply between_presence. }
    destruct (IH (after_send user rcpt text st) Htl' Hone' Hk')
      as (H1 & H2 & new & H3 & H4 & H5).
    split; [done|]. split; [done|].
    exists (mkMessage (length (messages st)) k (u_id user) text :: new).
    split; [|split].
    + rewrite H3. cbn. rewrite Hres. by rewrite <- app_assoc.
    + cbn. by rewrite H4.
    + by apply Forall_cons.
Qed.

(** Runs that do not overlap keep one conversation per pair: after any
    sends between [a] and [b], in both directions, from a state with at most
    one conversation of the pair, there is exactly one, and every message
    of these sends went to it. *)
Lemma send_each_one_conversation (succeeds : StoreOp -> bool) (a b : jsstring)
    (sends : list (jsstring * jsstring * jsstring)) (st : State) :
  (forall op, succeeds op = true) ->
  Forall (between st a b) sends ->
  sends <> [] ->
  (pair_count a b (conversations st) <= 1)%nat ->
  let st' := send_each succeeds sends st in
  pair_count a b (conversations st') = 1%nat /\
  exists k new,
    conv_id <$> findOne a b (conversations st') = Some k /\
    messages st' = messages st ++ new /\
    length new = length sends /\
    Forall (fun m => conversation m = k) new.
Proof.
  intros Hok Hall Hne Hle.
  destruct sends as [|[[sock toEmail] text] sends]; [done|].
  apply Forall_cons in Hall as [Hhd Htl].
  destruct Hhd as (user & rcpt & Hu & Hr & Hdir). cbn in Hu, Hr.
  cbn [send_each].
  rewrite (send_message_succeeds succeeds sock toEmail text st user rcpt Hu Hr Hok).
  cbn [fst].
  destruct (after_send_pair user rcpt text st a b Hdir Hle) as [Hone Hk].
  set (k := resolved_conversation (u_id user) (userId rcpt) (conversations st)) in *.
  assert (Forall (between (after_send user rcpt text st) a b) sends) as Htl'.
  { eapply Forall_impl; [exact Htl|]. intros send. by apply between_presence. }
  destruct (send_each_established succeeds a b k sends Hok
              (after_send user rcpt text st) Htl' Hone Hk)
    as (H1 & H2 & new & H3 & H4 & H5).
  split; [done|].
  exists k, (mkMessage (length (messages st)) k (u_id user) text :: new).
  split; [done|]. split; [|split].
  - rewrite H3. cbn. fold k. by rewrite <- app_assoc.
  - cbn. by rewrite H4.
  - by apply Forall_cons.
Qed.

(** *** The directory in the event loop *)

Section Loop.

Variable verify : jsstring -> option User.

Lemma authenticate_rejected (sock token : jsstring) (st : State) :
  verify token = None ->
  authenticate verify sock token st =
  (st, [EmitTo sock (auth_error (js "Invalid or expired token"))]).
Proof. intros H. unfold authenticate. by rewrite H. Qed.

(** An entry present after an event was there before, or the event is an
    [authenticate] on the entry's socket whose token verifies to the
    entry's user. *)
Lemma step_presence (i : Input) (sys : System) (email : jsstring) (p : Presence) :
  connectedUsers (state (step verify i sys).1) !! email = Some p ->
  connectedUsers (state sys) !! email = Some p \/
  exists token user,
    i = Authenticate (socketId p) token /\ verify token = Some user /\
    u_email user = email /\ u_id user = userId p.
Proof.
  destruct i as [sock|sock token|sock toEmail text|sock|n ok]; cbn.
  - by left.
  - unfold authenticate. destruct (verify token) as [decoded|] eqn:Hv; cbn; [|by left].
    rewrite lookup_insert. case_decide as Hd; [|by left].
    intros [= <-]. right. by exists token, decoded.
  - destruct (send_message_begin sock toEmail text (state sys)) as [out [t|o]]; by left.
  - unfold disconnect. destruct (socket_user (state sys) !! sock); cbn; [|by left].
    rewrite lookup_delete. case_decide; [done | by left].
  - destruct (pending sys !! n) as [t|]; [|by left].
    pose proof (resume_presence ok t (state sys)) as [Hc _].
    destruct (resume ok t (state sys)) as [[st out] [t'|o]]; cbn in *;
      rewrite Hc; by left.
Qed.

Lemma run_presence (inputs : list Input) :
  forall (sys : System) (email : jsstring) (p : Presence),
    connectedUsers (state (run verify inputs sys).1) !! email = Some p ->
    connectedUsers (state sys) !! email = Some p \/
    exists token user,
      Authenticate (socketId p) token ∈ inputs /\ verify token = Some user /\
      u_email user = email /\ u_id user = userId p.
Proof.
  induction inputs as [|i inputs IH]; intros sys email p H; [by left|].
  cbn in H. destruct (step verify i sys) as [sys1 out1] eqn:Hs.
  specialize (IH sys1 email p).
  destruct (run verify inputs sys1) as [sys2 out2]. cbn in *.
  destruct (IH H) as [H1|(token & user & Hin & Hrest)].
  - change sys1 with (sys1, out1).1 in H1. rewrite <- Hs in H1.
    apply step_presence in H1 as [H1|(token & user & -> & Hrest)]; [by left|].
    right. exists token, user. split; [apply list_elem_of_here | done].
  - right. exists token, user. split; [by apply list_elem_of_further | done].
Qed.

(** A run of the handler alone in the event loop, its store operations
    succeeding one after the other, is the run [send_message] describes. *)
Lemma send_message_in_loop (sock toEmail text : jsstring) (st : State) :
  exists replies,
    Forall (fun i => i = StoreReply 0 true) replies /\
    run verify (SendMessage sock toEmail text :: replies) (mkSystem st []) =
      (mkSystem (send_message (fun _ => true) sock toEmail text st).1.1 [],
       (send_message (fun _ => true) sock toEmail text st).1.2).
Proof.
  destruct (socket_user st !! sock) as [user|] eqn:Hu.
  2:{ exists []. split; [done|].
      unfold send_message. cbn. unfold send_message_begin. by rewrite Hu. }
  destruct (connectedUsers st !! toEmail) as [rcpt|] eqn:Hr.
  2:{ exists []. split; [done|].
      unfold send_message. cbn. unfold send_message_begin. by rewrite Hu, Hr. }
  rewrite (send_message_succeeds (fun _ => true) sock toEmail text st user rcpt Hu Hr)
    by done.
  unfold after_send, resolved_conversation, with_conversation. cbn [fst snd].
  destruct (findOne (u_id user) (userId rcpt) (conversations st)) as [c|] eqn:Hf.
  - exists (replicate 3 (StoreReply 0 true)). split; [by repeat constructor|].
    cbn -[lookup findOne save_lastMessage]. unfold send_message_begin. rewrite Hu, Hr.
    cbn -[findOne save_lastMessage]. unfold resume.
    cbn -[lookup findOne save_lastMessage]. rewrite Hf.
    cbn -[findOne save_lastMessage]. unfold resume.
    cbn -[findOne save_lastMessage]. unfold resume.
    cbn -[lookup findOne save_lastMessage]. rewrite Hu. reflexivity.
  - exists (replicate 4 (StoreReply 0 true)). split; [by repeat constructor|].
    cbn -[lookup findOne save_lastMessage]. unfold send_message_begin. rewrite Hu, Hr.
    cbn -[findOne save_lastMessage]. unfold resume.
    cbn -[lookup findOne save_lastMessage]. rewrite Hf.
    cbn -[findOne save_lastMessage]. unfold resume.
    cbn -[findOne save_lastMessage]. unfold resume.
    cbn -[findOne save_lastMessage]. unfold resume.
    cbn -[lookup findOne save_lastMessage]. rewrite Hu. reflexivity.
Qed.

End Loop.

(** The handler of [part_000] deletes the entry of the socket's email
    whatever socket the entry points at. *)
Lemma disconnect_deletes_unconditionally (sock : jsstring) (st : State) (user : User) :
  socket_user st !! sock = Some user ->
  connectedUsers (disconnect sock st) !! u_email user = None.
Proof.
  intros Hu. unfold disconnect. rewrite Hu. cbn. apply lookup_delete_eq.
Qed.

End AuthFacts.

(** * Properties of the specification *)

(** ** The directory as a trie *)

Module TrieClaims.
Import TrieServer TrieFacts Scenario.

Lemma search_calls_Some (cs : list TrieCall) :
  forall (t : Trie) (e s : jsstring),
    search e (calls cs t) = Some s -> search e t = Some s \/ e ∈ bound cs.
Proof.
  induction cs as [|c cs IH]; intros t e s H; [by left|].
  cbn in H. apply IH in H as [H|H].
  - destruct c as [e0 s0|e0]; cbn in H.
    + rewrite search_insert in H. destruct (decide (e = e0)) as [->|Hne].
      * right. cbn. apply list_elem_of_here.
      * by left.
    + left. by apply search_remove_Some in H.
  - right. destruct c; cbn; [by apply list_elem_of_further | done].
Qed.

(** C8. On a trie reached from the empty one by any calls of [insert] and
    [remove]: [search e] after [insert e s] returns [s]; a later [insert]
    for the same [e] replaces the socket id; and [search e'] returns
    [null] for every [e'] that was never bound, whether or not it is a
    prefix or an extension of a bound email. *)
Theorem C8_bind_lookup (cs : list TrieCall) (e s s' e' : jsstring)
    (Hfresh : e' ∉ bound cs) (Hne : e' <> e) :
  let t := calls cs newTrie in
  search e (insert e s t) = Some s /\
  search e (insert e s' (insert e s t)) = Some s' /\
  search e' (insert e s t) = None.
Proof.
  intros t. repeat split.
  - rewrite search_insert. by rewrite decide_True.
  - rewrite search_insert. by rewrite decide_True.
  - rewrite search_insert, decide_False by done.
    destruct (search e' t) as [x|] eqn:Hx; [|done].
    apply search_calls_Some in Hx as [Hx|Hx]; [|done].
    by rewrite search_newTrie in Hx.
Qed.

(** C8 at [e = "a@x.com"], with the proper prefix ["a@x"] never bound,
    after the extension ["a@x.com.au"] and ["b@x.com"] were bound and the
    latter removed. *)
Lemma C8_bind_lookup_witness :
  let cs := [CallInsert (js "a@x.com.au") s3; CallInsert b_email s2; CallRemove b_email] in
  let t := calls cs newTrie in
  ((js "a@x" ∉ bound cs) /\ js "a@x" <> a_email) /\
  search a_email (insert a_email s1 t) = Some s1 /\
  search a_email (insert a_email s2 (insert a_email s1 t)) = Some s2 /\
  search (js "a@x") (insert a_email s1 t) = None.
Proof.
  intros cs t.
  assert (js "a@x" ∉ bound cs) as Hfresh.
  { vm_compute. intros H. repeat (apply elem_of_cons in H as [H|H]; [discriminate H|]).
    by apply elem_of_nil in H. }
  assert (js "a@x" <> a_email) as Hne by (vm_compute; discriminate).
  split; [by split|].
  exact (C8_bind_lookup cs a_email s1 s2 (js "a@x") Hfresh Hne).
Defined.

(** For emails without surrogate pairs [remove] is exact, on any
    trie: the entry of [e1] is gone and the entry of every other email is
    kept, prefixes and extensions of [e1] included. *)
Lemma remove_pair_free (t : Trie) (e1 e2 : jsstring) :
  pair_free e1 = true -> e2 <> e1 ->
  search e2 (remove e1 t) = search e2 t /\ search e1 (remove e1 t) = None.
Proof.
  intros Hp Hne. split; [by apply search_remove_other | by apply search_remove_same].
Qed.

(** C9, at the failing input.  [insert] and [search] walk the email by
    code point, [remove] by code unit: for an email with a surrogate pair
    [remove] finds no path, and the entry stays. *)
Theorem C9_remove_misses_surrogate_pair :
  let t := insert b_email s2 (insert grin_email s1 newTrie) in
  search grin_email t = Some s1 /\
  search grin_email (remove grin_email t) = Some s1 /\
  search b_email (remove grin_email t) = Some s2.
Proof. vm_compute. done. Qed.

End TrieClaims.

(** ** The handlers *)

Module AuthClaims.
Import AuthServer AuthFacts Scenario.

(** C1, at the failing input.  Two sockets authenticate as the same user,
    so the directory points at the newer one; the handler of
    [part_000] deletes the entry of [socket.user.email] without comparing
    socket ids, so the disconnect of the older socket removes the entry of
    the newer one.  The same happens when the older socket's handler runs
    once more after the newer bind. *)
Theorem C1_stale_disconnect_removes_newer_bind :
  let before := (run verify same_user_twice boot).1 in
  let after := (step verify (Disconnect s1) before).1 in
  let rebound :=
    (run verify [Connect s1; Authenticate s1 a_token; Disconnect s1;
                 Connect s2; Authenticate s2 a_token] boot).1 in
  let again := (step verify (Disconnect s1) rebound).1 in
  s1 <> s2 /\
  connectedUsers (state before) !! a_email = Some (mkPresence s2 (u_id alice)) /\
  connectedUsers (state after) !! a_email = None /\
  connectedUsers (state rebound) !! a_email = Some (mkPresence s2 (u_id alice)) /\
  connectedUsers (state again) !! a_email = None.
Proof. vm_compute. repeat split; done. Qed.

(** C2, at the failing input.  The handler awaits [findOne] before it
    calls [create]: when a second send of the same pair is handled before
    the first one has created the conversation, both find nothing, both
    create, and the pair has two conversations, one message in each. *)
Theorem C2_overlapping_sends_duplicate_conversation :
  let sys := (run verify two_quick_sends boot).1 in
  pending sys = [] /\
  participants <$> conversations (state sys)
    = [[u_id alice; u_id bob]; [u_id alice; u_id bob]] /\
  pair_count (u_id alice) (u_id bob) (conversations (state sys)) = 2%nat /\
  conversation <$> messages (state sys) = [0; 1]%nat.
Proof. vm_compute. repeat split; done. Qed.

(** C3, amended.  For a send by an authenticated sender to an online
    recipient: when a store operation of the run fails, the run emits
    nothing, neither to the recipient nor to the sender, and its promise
    rejects; and a run that emits has performed every store operation, emits
    exactly the [receive_message] event, and leaves the message stored and
    the conversation pointing at it. *)
Theorem C3_delivery_only_after_persistence
    (succeeds : StoreOp -> bool) (sock toEmail text : jsstring) (st : State)
    (user : User) (rcpt : Presence)
    (Hu : socket_user st !! sock = Some user)
    (Hr : connectedUsers st !! toEmail = Some rcpt) :
  let r := send_message succeeds sock toEmail text st in
  (forall op, op ∈ attempted (u_id user) (userId rcpt) st -> succeeds op = false ->
     r.1.2 = [] /\ r.2 = Settled Rejected) /\
  (r.1.2 <> [] ->
     (forall op, op ∈ attempted (u_id user) (userId rcpt) st -> succeeds op = true) /\
     r.1.2 = [EmitTo (socketId rcpt) (receive_message (u_email user) text)] /\
     exists c d,
       messages r.1.1 = messages st ++ [mkMessage (length (messages st)) c (u_id user) text] /\
       d ∈ conversations r.1.1 /\ conv_id d = c /\
       lastMessage d = Some (length (messages st))).
Proof.
  intros r. split.
  - intros op Hop Hfail. by apply (send_message_fails succeeds _ _ _ _ user rcpt op).
  - intros Hout. split; [|split].
    + intros op Hop. destruct (succeeds op) eqn:Hs; [done|].
      destruct (send_message_fails succeeds sock toEmail text st user rcpt op) as [Hnil _];
        done.
    + subst r. by rewrite (send_message_emits succeeds sock toEmail text st user rcpt).
    + subst r. rewrite (send_message_emits succeeds sock toEmail text st user rcpt) by done.
      cbn [fst].
      destruct (after_send_persisted user rcpt text st) as (Hm & d & Hd & Hc & Hl & _).
      eexists _, d. by repeat split.
Qed.

(** C3 where the creation of the message fails in a send from the first
    user to the second. *)
Lemma C3_delivery_only_after_persistence_witness :
  let st := state (run verify both_online boot).1 in
  (socket_user st !! s1 = Some alice /\
   connectedUsers st !! b_email = Some (mkPresence s2 (u_id bob))) /\
  (send_message message_fails s1 b_email (js "hi") st).2 = Settled Rejected.
Proof.
  intros st.
  assert (socket_user st !! s1 = Some alice) as Hu by (vm_compute; reflexivity).
  assert (connectedUsers st !! b_email = Some (mkPresence s2 (u_id bob))) as Hr
    by (vm_compute; reflexivity).
  split; [by split|].
  refine (proj2 (proj1 (C3_delivery_only_after_persistence
                          message_fails s1 b_email (js "hi") st alice
                          (mkPresence s2 (u_id bob)) Hu Hr)
                   OpMessageCreate _ _)).
  - vm_compute. apply list_elem_of_further, list_elem_of_further, list_elem_of_here.
  - reflexivity.
Defined.

(** C3 as stated fails: when [Message.create] fails, the sender's socket
    receives no event at all, so no rejection signal. *)
Lemma C3_counterexample_no_rejection_signal :
  let st := state (run verify both_online boot).1 in
  socket_user st !! s1 = Some alice /\
  connectedUsers st !! b_email = Some (mkPresence s2 (u_id bob)) /\
  message_fails OpMessageCreate = false /\
  (send_message message_fails s1 b_email (js "hi") st).1.2 = [] /\
  (send_message message_fails s1 b_email (js "hi") st).2 = Settled Rejected.
Proof. vm_compute. repeat split; done. Qed.

(** C4, amended.  When the recipient key has no entry in the directory
    and the sender is authenticated, the only effect of the send is the
    event [error "Recipient not online"] on the sender's socket: the state,
    so both collections, is unchanged, and no run is left suspended.  For a
    sender that is not authenticated the event is
    [error "You must authenticate first"], the state unchanged as well.  On
    the server of [index.js], which has no authentication and no store, the
    sender's socket gets [error_message]. *)
Theorem C4_recipient_offline
    (succeeds : StoreOp -> bool) (sock toEmail text : jsstring) (st : State) (user : User)
    (Hu : socket_user st !! sock = Some user)
    (Hr : connectedUsers st !! toEmail = None) :
  send_message succeeds sock toEmail text st =
    (st, [EmitTo sock (error (js "Recipient not online"))], Settled Resolved) /\
  (forall check waiting,
     step check (SendMessage sock toEmail text) (mkSystem st waiting) =
       (mkSystem st waiting, [EmitTo sock (error (js "Recipient not online"))])) /\
  (forall other : jsstring,
     socket_user st !! other = None ->
     send_message succeeds other toEmail text st =
       (st, [EmitTo other (error (js "You must authenticate first"))], Settled Resolved)) /\
  (forall (server : TrieServer.Server) (from message : jsstring),
     TrieServer.search toEmail (TrieServer.trie server) = None ->
     TrieServer.step (TrieServer.SendMessage from toEmail message) server =
       (server,
        [TrieServer.EmitTo from
           (TrieServer.error_message (TrieServer.not_found_text toEmail))])).
Proof.
  repeat split.
  - unfold send_message, send_message_begin. by rewrite Hu, Hr.
  - intros check waiting. cbn. unfold send_message_begin. cbn. by rewrite Hu, Hr.
  - intros other Ho. unfold send_message, send_message_begin. by rewrite Ho.
  - intros server from message Hs. cbn. unfold TrieServer.send_message. by rewrite Hs.
Qed.

(** C4 for the first user writing to an email that never registered. *)
Lemma C4_recipient_offline_witness :
  let st := state (run verify both_online boot).1 in
  (socket_user st !! s1 = Some alice /\ connectedUsers st !! ghost_email = None) /\
  send_message all_succeed s1 ghost_email (js "hi") st =
    (st, [EmitTo s1 (error (js "Recipient not online"))], Settled Resolved).
Proof.
  intros st.
  assert (socket_user st !! s1 = Some alice) as Hu by (vm_compute; reflexivity).
  assert (connectedUsers st !! ghost_email = None) as Hr by (vm_compute; reflexivity).
  split; [by split|].
  exact (proj1 (C4_recipient_offline all_succeed s1 ghost_email (js "hi") st alice Hu Hr)).
Defined.

(** C4 as stated fails: a socket that has not authenticated and writes to
    an absent recipient is told to authenticate, not that the recipient is
    offline. *)
Lemma C4_counterexample_unauthenticated_sender :
  connectedUsers initial !! ghost_email = None /\
  send_message all_succeed s1 ghost_email (js "hi") initial =
    (initial, [EmitTo s1 (error (js "You must authenticate first"))], Settled Resolved) /\
  js "You must authenticate first" <> js "Recipient not online".
Proof. vm_compute. repeat split; done. Qed.

(** C5, at the failing inputs.  On [index.js] the loop of the disconnect
    handler stops at the first entry of the closing socket: of two emails
    registered by one socket the second stays in the trie, bound to a
    socket that is no longer open; and an email with a surrogate pair stays
    because [remove] does not find it.  On [part_000] the handler deletes
    the entry of the last email the socket authenticated as, and the entry
    of an earlier one stays. *)
Theorem C5_entry_outlives_connection :
  let server := (TrieServer.run two_registrations TrieServer.initial).1 in
  let grinning := (TrieServer.run grin_registration TrieServer.initial).1 in
  let sys := (run verify two_identities boot).1 in
  TrieServer.open_sockets two_registrations [] = [] /\
  TrieServer.search a_email (TrieServer.trie server) = None /\
  TrieServer.search b_email (TrieServer.trie server) = Some s1 /\
  TrieServer.open_sockets grin_registration [] = [] /\
  TrieServer.search grin_email (TrieServer.trie grinning) = Some s1 /\
  connectedUsers (state sys) !! a_email = Some (mkPresence s1 (u_id alice)) /\
  connectedUsers (state sys) !! b_email = None.
Proof. vm_compute. repeat split; done. Qed.


(** C7, amended.  On the server of [part_000], after any events, handled
    in any order and interleaved with store replies in any way, every entry
    of [connectedUsers] comes from an [authenticate] event on the socket
    the entry points at, whose token verified to the entry's email and user
    id; and a token that does not verify changes nothing.  The server of
    [index.js] verifies nothing: [register] binds the email it is given to
    the socket. *)
Theorem C7_entries_come_from_verified_tokens
    (check : jsstring -> option User) (inputs : list Input)
    (email : jsstring) (p : Presence)
    (Hentry : connectedUsers (state (run check inputs boot).1) !! email = Some p) :
  (exists token user,
     Authenticate (socketId p) token ∈ inputs /\ check token = Some user /\
     u_email user = email /\ u_id user = userId p) /\
  (forall sock token st,
     check token = None -> (authenticate check sock token st).1 = st) /\
  (forall (server : TrieServer.Server) (sock address : jsstring),
     TrieServer.search address
       (TrieServer.trie (TrieServer.register sock address server)) = Some sock).
Proof.
  split; [|split].
  - apply run_presence in Hentry as [H|H]; [|done].
    cbn in H. by rewrite lookup_empty in H.
  - intros sock token st H. by rewrite authenticate_rejected.
  - intros server sock address. cbn. rewrite TrieFacts.search_insert.
    by rewrite decide_True.
Qed.

(** C7 for the entry of the first user after she authenticated. *)
Lemma C7_entries_come_from_verified_tokens_witness :
  let inputs := [Connect s1; Authenticate s1 a_token] in
  connectedUsers (state (run verify inputs boot).1) !! a_email
    = Some (mkPresence s1 (u_id alice)) /\
  exists token user,
    Authenticate s1 token ∈ inputs /\ verify token = Some user /\
    u_email user = a_email /\ u_id user = u_id alice.
Proof.
  intros inputs.
  assert (connectedUsers (state (run verify inputs boot).1) !! a_email
          = Some (mkPresence s1 (u_id alice))) as Hentry by (vm_compute; reflexivity).
  split; [exact Hentry|].
  exact (proj1 (C7_entries_come_from_verified_tokens verify inputs a_email
                  (mkPresence s1 (u_id alice)) Hentry)).
Defined.

(** C7 as stated fails on [index.js]: whatever the verifier, even one that
    accepts no credential, a [register] event puts the email it carries in
    the directory. *)
Lemma C7_counterexample_register_without_verification :
  ~ (forall (verifier : jsstring -> option jsstring) (inputs : list TrieServer.Input)
            (address sock : jsstring),
       TrieServer.search address
         (TrieServer.trie (TrieServer.run inputs TrieServer.initial).1) = Some sock ->
       exists credential, verifier credential = Some address).
Proof.
  intros H.
  destruct (H (fun _ => None) [TrieServer.Connect s1; TrieServer.Register s1 a_email]
              a_email s1) as [credential Hc]; [vm_compute; reflexivity | discriminate Hc].
Qed.

(** C10 as stated fails: the sender has a conversation with another user
    (the second document), yet her message to herself is filed under the
    conversation she has with herself alone (the first document), which an
    earlier message to herself created. *)
Lemma C10_counterexample_self_conversation_first :
  let st := state (run verify self_then_other boot).1 in
  let st' := (send_message all_succeed s1 a_email (js "note") st).1.1 in
  pending (run verify self_then_other boot).1 = [] /\
  conversations st =
    [mkConversation 0 [u_id alice; u_id alice] (Some 0%nat);
     mkConversation 1 [u_id alice; u_id bob] (Some 1%nat)] /\
  u_id alice <> u_id bob /\
  last (messages st') = Some (mkMessage 2 0 (u_id alice) (js "note")) /\
  conversations st' =
    [mkConversation 0 [u_id alice; u_id alice] (Some 2%nat);
     mkConversation 1 [u_id alice; u_id bob] (Some 1%nat)].
Proof. vm_compute. repeat split; done. Qed.

End AuthClaims.


(** ** The shape of the trie under [insert] and [remove] *)

Module TrieShapeFacts.
Import TrieServer TrieFacts TrieShape.

Lemma node_eta (n : TrieNode) :
  mkTrieNode (children n) (isEndOfWord n) (socketId n) = n.
Proof. by destruct n. Qed.

Lemma blank_lookup (n child : TrieNode) (c : jsstring) :
  children n !! c = Some child -> blank n = false.
Proof.
  intros H. unfold blank. apply andb_false_iff. right.
  apply not_true_iff_false. rewrite no_children_spec. intros He.
  by rewrite He, lookup_empty in H.
Qed.

Lemma free_along_new (p : list jsstring) : free_along p newTrieNode.
Proof. destruct p as [|c p]; cbn; [done|]. by rewrite lookup_empty. Qed.

Lemma tidy_new : tidy newTrieNode.
Proof.
  intros [|c p]; cbn.
  - split; [done|]. by intros [? ?].
  - by rewrite lookup_empty.
Qed.

Lemma tidy_child (n child : TrieNode) (c : jsstring) :
  tidy n -> children n !! c = Some child -> tidy child /\ blank child = false.
Proof.
  intros Ht Hc. split.
  - intros p. specialize (Ht (c :: p)). cbn in Ht. rewrite Hc in Ht. apply Ht.
  - specialize (Ht [c]). cbn in Ht. rewrite Hc in Ht. apply Ht.
Qed.

(** [remove] undoes [insert] exactly, flag of the pruning included. *)
Lemma removeHelper_insert_from (p : list jsstring) (s : jsstring) :
  forall n, free_along p n -> removeHelper p (insert_from p s n) = (blank n, n).
Proof.
  induction p as [|c p IH]; intros n Hfree.
  - destruct Hfree as [He Hs]. cbn. unfold blank. rewrite He. cbn.
    f_equal. rewrite <- (node_eta n) at 2. by rewrite He, Hs.
  - cbn [free_along] in Hfree.
    cbn [insert_from removeHelper children isEndOfWord socketId].
    rewrite lookup_insert_eq.
    destruct (children n !! c) as [child|] eqn:Hc.
    + destruct Hfree as [Hb Hfree]. unfold default. cbn [from_option id].
      rewrite (IH child Hfree), Hb.
      rewrite insert_insert_eq, (insert_id _ _ _ Hc), node_eta.
      by rewrite (blank_lookup n child c Hc).
    + unfold default. cbn [from_option].
      rewrite (IH newTrieNode (free_along_new p)).
      change (blank newTrieNode) with true. cbn iota.
      rewrite (delete_insert_id _ _ _ Hc). unfold blank. by rewrite node_eta.
Qed.

Lemma insert_from_not_blank (p : list jsstring) (s : jsstring) (n : TrieNode) :
  blank (insert_from p s n) = false.
Proof.
  destruct p as [|c p]; cbn; [done|].
  eapply blank_lookup. cbn. apply lookup_insert_eq.
Qed.

Lemma tidy_insert_from (q : list jsstring) (s : jsstring) :
  forall n, tidy n -> tidy (insert_from q s n).
Proof.
  induction q as [|c0 q IH]; intros n Ht p.
  - destruct p as [|c p]; cbn.
    + split; [by eexists | done].
    + apply (Ht (c :: p)).
  - destruct p as [|c p]; cbn [insert_from tidy_along children isEndOfWord socketId].
    + apply (Ht []).
    + destruct (decide (c = c0)) as [->|Hne].
      * rewrite lookup_insert_eq. split; [apply insert_from_not_blank|].
        apply IH. destruct (children n !! c0) as [child|] eqn:Hc; cbn.
        -- by apply (tidy_child n child c0).
        -- apply tidy_new.
      * rewrite lookup_insert_ne by done. apply (Ht (c :: p)).
Qed.

(** What [removeHelper] keeps: tidiness, and a node it does not report as
    prunable is not blank unless it was. *)
Lemma tidy_removeHelper (q : list jsstring) :
  forall n, tidy n ->
    tidy (removeHelper q n).2 /\
    ((removeHelper q n).1 = true -> blank (removeHelper q n).2 = true) /\
    ((removeHelper q n).1 = false -> blank n = false -> blank (removeHelper q n).2 = false).
Proof.
  induction q as [|c0 q IH]; intros n Ht.
  - cbn [removeHelper]. destruct (isEndOfWord n) eqn:He; cbn.
    + split; [|split].
      * intros [|c p]; cbn; [|apply (Ht (c :: p))].
        split; [done|]. by intros [? ?].
      * done.
      * intros H _. unfold blank. cbn. done.
    + split; [done|]. split; [done|]. done.
  - cbn [removeHelper]. destruct (children n !! c0) as [child|] eqn:Hc; cbn.
    2:{ split; [done|]. split; done. }
    destruct (tidy_child n child c0 Ht Hc) as [Htc Hbc].
    destruct (IH child Htc) as (Ht' & Hyes & Hno).
    destruct (removeHelper q child) as [prune child'] eqn:Hr. cbn in *.
    destruct prune; cbn.
    + split; [|split].
      * intros [|c p]; cbn; [apply (Ht [])|].
        destruct (decide (c = c0)) as [->|Hne].
        -- by rewrite lookup_delete_eq.
        -- rewrite lookup_delete_ne by done. apply (Ht (c :: p)).
      * done.
      * intros H _. done.
    + split; [|split].
      * intros [|c p]; cbn; [apply (Ht [])|].
        destruct (decide (c = c0)) as [->|Hne].
        -- rewrite lookup_insert_eq. split; [by apply Hno | apply Ht'].
        -- rewrite lookup_insert_ne by done. apply (Ht (c :: p)).
      * done.
      * intros _ _. eapply blank_lookup. cbn. apply lookup_insert_eq.
Qed.

Lemma tidy_calls (cs : list TrieCall) :
  forall t, tidy (root t) -> tidy (root (calls cs t)).
Proof.
  induction cs as [|c cs IH]; intros t Ht; [done|].
  cbn. apply IH. destruct c as [e s|e]; cbn.
  - by apply tidy_insert_from.
  - by apply tidy_removeHelper.
Qed.

Lemma tidy_free_along (p : list jsstring) :
  forall n, tidy n -> search_from p n = None -> free_along p n.
Proof.
  induction p as [|c p IH]; intros n Ht Hs; cbn in *.
  - specialize (Ht []). cbn in Ht. destruct (isEndOfWord n) eqn:He.
    + destruct (proj1 Ht eq_refl) as [x Hx]. congruence.
    + split; [done|]. destruct (socketId n) eqn:Hsid; [|done].
      assert (false = true) as Habs by (apply Ht; by eexists). discriminate Habs.
  - destruct (children n !! c) as [child|] eqn:Hc; [|done].
    destruct (tidy_child n child c Ht Hc) as [Htc Hbc]. split; [done|]. by apply IH.
Qed.

(** [removeHelper] along a path that ends no email changes nothing. *)
Lemma removeHelper_free (p : list jsstring) :
  forall n, free_along p n -> removeHelper p n = (false, n).
Proof.
  induction p as [|c p IH]; intros n Hfree; cbn in *.
  - destruct Hfree as [He _]. by rewrite He.
  - destruct (children n !! c) as [child|] eqn:Hc; [|done].
    destruct Hfree as [_ Hfree]. rewrite (IH child Hfree).
    by rewrite (insert_id _ _ _ Hc), node_eta.
Qed.

(** A second [removeHelper] along the same path changes nothing. *)
Lemma removeHelper_again (p : list jsstring) :
  forall n, removeHelper p (removeHelper p n).2 = (false, (removeHelper p n).2).
Proof.
  induction p as [|c p IH]; intros n.
  - cbn [removeHelper]. destruct (isEndOfWord n) eqn:He; cbn; [done|]. by rewrite He.
  - cbn [removeHelper]. destruct (children n !! c) as [child|] eqn:Hc; cbn.
    2:{ by rewrite Hc. }
    specialize (IH child).
    destruct (removeHelper p child) as [prune child'] eqn:Hr. cbn in *.
    destruct prune; cbn.
    + by rewrite lookup_delete_eq.
    + rewrite lookup_insert_eq, IH. by rewrite insert_insert_eq.
Qed.

Lemma insert_from_twice (p : list jsstring) (s1 s2 : jsstring) :
  forall n, insert_from p s2 (insert_from p s1 n) = insert_from p s2 n.
Proof.
  induction p as [|c p IH]; intros n; cbn; [done|].
  rewrite lookup_insert_eq. cbn. by rewrite insert_insert_eq, IH.
Qed.

Lemma insert_from_commute (p1 : list jsstring) (s1 s2 : jsstring) :
  forall (p2 : list jsstring) (n : TrieNode),
    p1 <> p2 ->
    insert_from p1 s1 (insert_from p2 s2 n) = insert_from p2 s2 (insert_from p1 s1 n).
Proof.
  induction p1 as [|c1 p1 IH]; intros [|c2 p2] n Hne; cbn; try done.
  destruct (decide (c1 = c2)) as [->|Hc].
  - rewrite !lookup_insert_eq. cbn. rewrite !insert_insert_eq.
    f_equal. f_equal. apply IH. congruence.
  - rewrite !lookup_insert_ne by done. f_equal. by apply insert_insert_ne.
Qed.

(** The marked paths of a trie built by calls are walks by code point of
    emails that were inserted. *)
Lemma search_from_calls (cs : list TrieCall) :
  forall (t : Trie) (q : list jsstring) (s : jsstring),
    search_from q (root (calls cs t)) = Some s ->
    search_from q (root t) = Some s \/ exists e, e ∈ bound cs /\ q = chars e.
Proof.
  induction cs as [|c cs IH]; intros t q s H; [by left|].
  cbn in H. apply IH in H as [H|(e & He & ->)].
  - destruct c as [e0 s0|e0]; cbn in H.
    + rewrite search_insert_from in H. destruct (decide (q = chars e0)) as [->|Hne].
      * right. exists e0. split; [apply list_elem_of_here | done].
      * by left.
    + left. destruct (decide (q = units e0)) as [->|Hne].
      * by rewrite (proj1 (proj2 (removeHelper_spec (units e0) (root t)))) in H.
      * by rewrite (proj1 (removeHelper_spec (units e0) (root t))) in H.
  - right. exists e. split; [|done].
    destruct c; cbn; [by apply list_elem_of_further | done].
Qed.

Lemma node_at_tidy (p : list jsstring) :
  forall n m, tidy n -> node_at p n = Some m ->
    tidy m /\ (p <> [] -> blank m = false).
Proof.
  induction p as [|c p IH]; intros n m Ht H; cbn in H.
  - inversion H; subst. by split.
  - destruct (children n !! c) as [child|] eqn:Hc; [|done].
    destruct (tidy_child n child c Ht Hc) as [Htc Hbc].
    destruct (IH child m Htc H) as [Htm Hb]. split; [done|].
    intros _. destruct p as [|c' p]; [|by apply Hb].
    cbn in H. by inversion H; subst.
Qed.

End TrieShapeFacts.

(** ** The store in the event loop *)

Module StoreFacts.
Import AuthServer AuthFacts StoreShape.

Lemma continues_refl (st : State) : continues st st.
Proof.
  split; [done|]. split; [|done]. intros i c H. by exists c.
Qed.

Lemma continues_trans (st1 st2 st3 : State) :
  continues st1 st2 -> continues st2 st3 -> continues st1 st3.
Proof.
  intros (Hu1 & Hc1 & Hm1) (Hu2 & Hc2 & Hm2). split; [|split].
  - intros s H. by apply Hu2, Hu1.
  - intros i c H. destruct (Hc1 i c H) as (c' & H' & Hid & Hp).
    destruct (Hc2 i c' H') as (c'' & H'' & Hid' & Hp').
    exists c''. split; [done|]. split; congruence.
  - by etrans.
Qed.

Lemma save_lastMessage_lookup (c m i : nat) (cs : list ConversationDoc) :
  save_lastMessage c m cs !! i =
  (fun d => if decide (conv_id d = c)
            then mkConversation (conv_id d) (participants d) (Some m) else d)
    <$> cs !! i.
Proof. unfold save_lastMessage. apply list_lookup_fmap. Qed.

Lemma save_lastMessage_keeps (c m i : nat) (cs : list ConversationDoc) (d : ConversationDoc) :
  cs !! i = Some d ->
  exists d', save_lastMessage c m cs !! i = Some d' /\
             conv_id d' = conv_id d /\ participants d' = participants d /\
             (lastMessage d' = lastMessage d \/ (conv_id d = c /\ lastMessage d' = Some m)).
Proof.
  intros H. rewrite save_lastMessage_lookup, H. cbn.
  destruct (decide (conv_id d = c)) as [Hc|Hc]; eexists; (split; [done|]); cbn.
  - repeat split; try done. by right.
  - repeat split; try done. by left.
Qed.

(** Whatever the state and the task, what [resume] leaves continues what it
    found. *)
Lemma resume_continues (ok : bool) (t : Task) (st : State) :
  continues st (resume ok t st).1.1.
Proof.
  unfold resume. destruct ok; cbn; [|apply continues_refl].
  destruct (awaited t) as [| |c|c m]; cbn.
  - destruct (findOne _ _ _); apply continues_refl.
  - split; [done|]. split; [|done]. intros i d H. exists d.
    split; [|done]. cbn. by apply lookup_app_l_Some.
  - split; [done|]. split; [intros i d H; by exists d|].
    cbn. by apply prefix_app_r.
  - assert (continues st (mkState (connectedUsers st) (socket_user st)
                            (save_lastMessage c m (conversations st)) (messages st))) as H.
    { split; [done|]. split; [|done]. intros i d Hd. cbn.
      destruct (save_lastMessage_keeps c m i _ d Hd) as (d' & H1 & H2 & H3 & _).
      by exists d'. }
    by destruct (socket_user st !! task_socket t).
Qed.

Lemma task_ok_continues (st st' : State) (t : Task) :
  continues st st' -> task_ok st t -> task_ok st' t.
Proof.
  intros (Hu & Hc & Hm) [Hs Ht]. split; [by apply Hu|].
  destruct (awaited t) as [| |c|c m]; try done.
  - destruct Ht as (d & Hd & Hin). destruct (Hc c d Hd) as (d' & Hd' & _ & Hp).
    exists d'. split; [done|]. by rewrite Hp.
  - destruct Ht as (d & msg & Hd & Hmsg & Hconv & Hcont).
    destruct (Hc c d Hd) as (d' & Hd' & _ & _).
    exists d', msg. split; [done|]. split; [|done].
    by apply (prefix_lookup_Some _ _ _ _ Hmsg).
Qed.

Lemma findOne_position (a b : jsstring) (st : State) (c : ConversationDoc) :
  store_ok st -> findOne a b (conversations st) = Some c ->
  conversations st !! conv_id c = Some c /\ a ∈ participants c.
Proof.
  intros [Hcs _] Hf. apply findOne_Some in Hf as [Hin Hall].
  apply list_elem_of_lookup in Hin as [i Hi].
  destruct (Hcs i c Hi) as [Hid _]. rewrite Hid. split; [done|].
  unfold all_of in Hall. apply andb_true_iff in Hall as [Ha _].
  by apply bool_decide_eq_true in Ha.
Qed.

(** One store reply keeps the store consistent, hands a consistent task on,
    delivers only what is stored, and rejects only when the operation failed. *)
Lemma resume_ok (ok : bool) (t : Task) (st : State) :
  store_ok st -> task_ok st t ->
  store_ok (resume ok t st).1.1 /\
  (forall t', (resume ok t st).2 = Suspended t' -> task_ok (resume ok t st).1.1 t') /\
  (forall e, e ∈ (resume ok t st).1.2 ->
     exists user msg,
       socket_user st !! task_socket t = Some user /\
       e = EmitTo (socketId (recipient t)) (receive_message (u_email user) (task_content t)) /\
       msg ∈ messages (resume ok t st).1.1 /\ content msg = task_content t /\
       sender msg ∈ [senderId t] ++ (sender <$> messages st)) /\
  (ok = true -> (resume ok t st).2 <> Settled Rejected).
Proof.
  intros Hst [Hsock Ht]. unfold resume. destruct ok; cbn.
  2:{ split; [done|]. split; [done|]. split; [|done].
      intros e He. by apply elem_of_nil in He. }
  destruct (awaited t) as [| |c|c m] eqn:Ha; cbn.
  - destruct (findOne (senderId t) (receiverId t) (conversations st)) as [c|] eqn:Hf; cbn.
    + split; [done|]. split; [|split]; [| |done].
      * intros t' [= <-]. split; [done|]. cbn.
        destruct (findOne_position _ _ st c Hst Hf) as [Hpos Hin]. by exists c.
      * intros e He. by apply elem_of_nil in He.
    + split; [done|]. split; [|split]; [| |done].
      * intros t' [= <-]. by split.
      * intros e He. by apply elem_of_nil in He.
  - destruct Hst as [Hcs Hms]. split; [|split; [|split]]; [| | |done].
    + split; cbn.
      * intros i d Hd. apply lookup_app_Some in Hd as [Hd|[Hlen Hd]].
        -- apply (Hcs i d Hd).
        -- apply list_lookup_singleton_Some in Hd as [Hi <-]. cbn.
           split; [lia|]. split; [done|]. done.
      * intros j msg Hj. destruct (Hms j msg Hj) as [Hid (d & Hd & Hin)].
        split; [done|]. exists d. split; [|done]. by apply lookup_app_l_Some.
    + intros t' [= <-]. split; [done|]. cbn.
      eexists. split.
      * apply lookup_app_Some. right. split; [done|].
        by rewrite Nat.sub_diag.
      * cbn. apply list_elem_of_here.
    + intros e He. by apply elem_of_nil in He.
  - destruct Hst as [Hcs Hms]. destruct Ht as (d & Hd & Hin).
    split; [|split; [|split]]; [| | |done].
    + split; cbn.
      * intros i d0 Hd0. destruct (Hcs i d0 Hd0) as (Hid & Hlen & Hlast).
        split; [done|]. split; [done|]. intros m Hm.
        destruct (Hlast m Hm) as (msg & Hmsg & Hconv).
        exists msg. split; [|done]. by apply lookup_app_l_Some.
      * intros j msg Hj. apply lookup_app_Some in Hj as [Hj|[Hlen Hj]].
        -- apply (Hms j msg Hj).
        -- apply list_lookup_singleton_Some in Hj as [Hi <-]. cbn.
           split; [lia|]. by exists d.
    + intros t' [= <-]. split; [done|]. cbn.
      exists d, (mkMessage (length (messages st)) c (senderId t) (task_content t)).
      split; [done|]. split; [|done].
      apply lookup_app_Some. right. split; [done|]. by rewrite Nat.sub_diag.
    + intros e He. by apply elem_of_nil in He.
  - destruct Hst as [Hcs Hms]. destruct Ht as (d & msg & Hd & Hmsg & Hconv & Hcont).
    destruct Hsock as [user Hu]. rewrite Hu. cbn.
    split; [|split; [|split]]; [| | |done].
    + split; cbn.
      * intros i d0 Hd0. rewrite save_lastMessage_lookup in Hd0.
        destruct (conversations st !! i) as [d1|] eqn:Hd1; [|done].
        cbn in Hd0. inversion Hd0; subst d0; clear Hd0.
        destruct (Hcs i d1 Hd1) as (Hid & Hlen & Hlast).
        destruct (decide (conv_id d1 = c)) as [Hc|Hc]; cbn.
        -- split; [done|]. split; [done|]. intros m0 [= <-].
           exists msg. split; [done|]. congruence.
        -- split; [done|]. split; [done|]. done.
      * intros j msg0 Hj. destruct (Hms j msg0 Hj) as [Hid (d0 & Hd0 & Hin)].
        split; [done|].
        destruct (save_lastMessage_keeps c m _ _ d0 Hd0) as (d' & H1 & _ & H3 & _).
        exists d'. split; [done|]. by rewrite H3.
    + done.
    + intros e He. apply list_elem_of_singleton in He. subst e.
      exists user, msg. split; [done|]. split; [done|]. cbn.
      split; [by apply (list_elem_of_lookup_2 _ m)|]. split; [done|].
      apply list_elem_of_further. apply list_elem_of_fmap. exists msg.
      split; [done|]. by apply (list_elem_of_lookup_2 _ m).
Qed.

Lemma with_conversation_unique (a b x y : jsstring) (cs : list ConversationDoc) :
  x <> y -> (pair_count x y cs <= 1)%nat ->
  (pair_count x y (with_conversation a b cs) <= 1)%nat.
Proof.
  intros Hne Hle. unfold with_conversation.
  destruct (findOne a b cs) eqn:Hf; [done|].
  rewrite pair_count_app.
  destruct (all_of x y _) eqn:Hall; [|lia].
  apply (all_of_two x y a b) in Hall as [[-> ->]|[-> ->]]; try done.
  - rewrite (findOne_None_count _ _ _ Hf). lia.
  - rewrite pair_count_comm, (findOne_None_count _ _ _ Hf). lia.
Qed.

(** The conversations a run of [send_message] leaves, whichever of its
    operations fail: those it found, with the conversation of the pair added
    when it was missing and its creation was reached, and with one
    [lastMessage] set when the save was reached. *)
Lemma send_message_conversations (succeeds : StoreOp -> bool)
    (sock toEmail text : jsstring) (st : State) :
  let cs' := conversations (send_message succeeds sock toEmail text st).1.1 in
  cs' = conversations st \/
  exists a b,
    cs' = with_conversation a b (conversations st) \/
    exists c m, cs' = save_lastMessage c m (with_conversation a b (conversations st)).
Proof.
  unfold send_message, send_message_begin.
  destruct (socket_user st !! sock) as [user|] eqn:Hu; [|by left].
  destruct (connectedUsers st !! toEmail) as [rcpt|] eqn:Hr; [|by left].
  unfold run_task, resume, await, conversation_create, message_create, with_conversation.
  cbn -[lookup findOne save_lastMessage].
  destruct (succeeds OpFindOne); cbn -[lookup findOne save_lastMessage]; [|by left].
  destruct (findOne (u_id user) (userId rcpt) (conversations st)) as [c|] eqn:Hf;
    cbn -[lookup findOne save_lastMessage].
  - destruct (succeeds OpMessageCreate); cbn -[lookup findOne save_lastMessage]; [|by left].
    destruct (succeeds OpSave); cbn -[lookup findOne save_lastMessage]; [|by left].
    right. exists (u_id user), (userId rcpt). right. rewrite Hf.
    destruct (socket_user st !! sock); by eexists _, _.
  - destruct (succeeds OpConversationCreate);
      cbn -[lookup findOne save_lastMessage]; [|by left].
    right. exists (u_id user), (userId rcpt). rewrite Hf.
    destruct (succeeds OpMessageCreate); cbn -[lookup findOne save_lastMessage]; [|by left].
    destruct (succeeds OpSave); cbn -[lookup findOne save_lastMessage]; [|by left].
    right. destruct (socket_user st !! sock); by eexists _, _.
Qed.

Section Loop.

Variable verify : jsstring -> option User.

Lemma step_continues (i : Input) (sys : System) :
  continues (state sys) (state (step verify i sys).1).
Proof.
  destruct i as [sock|sock token|sock toEmail text|sock|n ok]; cbn.
  - apply continues_refl.
  - unfold authenticate. destruct (verify token); cbn; [|apply continues_refl].
    split; [|split]; cbn; [| intros i c H; by exists c | done].
    intros s Hs. destruct (decide (s = sock)) as [->|Hne].
    + rewrite lookup_insert_eq. by eexists.
    + by rewrite lookup_insert_ne.
  - destruct (send_message_begin sock toEmail text (state sys)) as [out [t|o]];
      apply continues_refl.
  - unfold disconnect. destruct (socket_user (state sys) !! sock); cbn;
      [|apply continues_refl].
    split; [done|]. split; [intros i c H; by exists c | done].
  - destruct (pending sys !! n) as [t|]; [|apply continues_refl].
    pose proof (resume_continues ok t (state sys)) as H.
    by destruct (resume ok t (state sys)) as [[st out] [t'|o]].
Qed.

Lemma run_continues (inputs : list Input) :
  forall sys, continues (state sys) (state (run verify inputs sys).1).
Proof.
  induction inputs as [|i inputs IH]; intros sys; [apply continues_refl|].
  cbn. pose proof (step_continues i sys) as H1.
  destruct (step verify i sys) as [sys1 out1]. specialize (IH sys1).
  destruct (run verify inputs sys1) as [sys2 out2]. cbn in *.
  by eapply continues_trans.
Qed.

Lemma Forall_task_ok_continues (st st' : State) (ts : list Task) :
  continues st st' -> Forall (task_ok st) ts -> Forall (task_ok st') ts.
Proof.
  intros Hc Hts. eapply Forall_impl; [exact Hts|]. intros t. by apply task_ok_continues.
Qed.

Lemma step_ok (i : Input) (sys : System) :
  system_ok sys -> system_ok (step verify i sys).1.
Proof.
  intros [Hst Hts]. pose proof (step_continues i sys) as Hcont.
  destruct i as [sock|sock token|sock toEmail text|sock|n ok]; cbn in *.
  - by split.
  - unfold authenticate in *. destruct (verify token); cbn in *;
      (split; [done | by apply (Forall_task_ok_continues (state sys))]).
  - unfold send_message_begin.
    destruct (socket_user (state sys) !! sock) as [user|] eqn:Hu; [|by split].
    destruct (connectedUsers (state sys) !! toEmail) as [rcpt|]; [|by split].
    cbn. split; [done|]. apply Forall_app. split; [done|].
    apply Forall_singleton. split; [|done]. cbn. by rewrite Hu.
  - unfold disconnect in *. destruct (socket_user (state sys) !! sock); cbn in *;
      (split; [done | by apply (Forall_task_ok_continues (state sys))]).
  - destruct (pending sys !! n) as [t|] eqn:Hn; [|by split].
    assert (task_ok (state sys) t) as Ht.
    { rewrite Forall_lookup in Hts. by apply (Hts n). }
    destruct (resume_ok ok t (state sys) Hst Ht) as (Hst' & Hnext & _ & _).
    destruct (resume ok t (state sys)) as [[st out] [t'|o]]; cbn in *.
    + split; [done|]. apply Forall_insert; [|by apply Hnext].
      by apply (Forall_task_ok_continues (state sys)).
    + split; [done|]. apply Forall_delete.
      by apply (Forall_task_ok_continues (state sys)).
Qed.

Lemma boot_ok : system_ok boot.
Proof.
  split; [|by apply Forall_nil]. split; intros i x H; cbn in H; by rewrite lookup_nil in H.
Qed.

Lemma run_ok (inputs : list Input) :
  forall sys, system_ok sys -> system_ok (run verify inputs sys).1.
Proof.
  induction inputs as [|i inputs IH]; intros sys Hsys; [done|].
  cbn. pose proof (step_ok i sys Hsys) as H1.
  destruct (step verify i sys) as [sys1 out1]. specialize (IH sys1 H1).
  by destruct (run verify inputs sys1) as [sys2 out2].
Qed.

(** A delivered message is a stored message, at the step that delivers it. *)
Lemma step_delivers_stored (i : Input) (sys : System) (to from text : jsstring) :
  system_ok sys ->
  EmitTo to (receive_message from text) ∈ (step verify i sys).2 ->
  exists msg, msg ∈ messages (state (step verify i sys).1) /\ content msg = text.
Proof.
  intros [Hst Hts] He.
  destruct i as [sock|sock token|sock toEmail txt|sock|n ok]; cbn in *.
  - by apply elem_of_nil in He.
  - unfold authenticate in He. destruct (verify token); cbn in He;
      apply list_elem_of_singleton in He; discriminate He.
  - unfold send_message_begin in *.
    destruct (socket_user (state sys) !! sock) as [user|]; cbn in He.
    2:{ apply list_elem_of_singleton in He. discriminate He. }
    destruct (connectedUsers (state sys) !! toEmail) as [rcpt|]; cbn in He.
    + by apply elem_of_nil in He.
    + apply list_elem_of_singleton in He. discriminate He.
  - by apply elem_of_nil in He.
  - destruct (pending sys !! n) as [t|] eqn:Hn; [|by apply elem_of_nil in He].
    assert (task_ok (state sys) t) as Ht.
    { rewrite Forall_lookup in Hts. by apply (Hts n). }
    destruct (resume_ok ok t (state sys) Hst Ht) as (_ & _ & Hout & _).
    destruct (resume ok t (state sys)) as [[st out] p]; cbn in *.
    assert (EmitTo to (receive_message from text) ∈ out) as He' by (by destruct p).
    destruct (Hout _ He') as (user & msg & _ & Heq & Hin & Hcont & _).
    inversion Heq; subst. exists msg. split; [|done]. by destruct p.
Qed.

Lemma run_delivers_stored (inputs : list Input) :
  forall (sys : System) (to from text : jsstring),
    system_ok sys ->
    EmitTo to (receive_message from text) ∈ (run verify inputs sys).2 ->
    exists msg, msg ∈ messages (state (run verify inputs sys).1) /\ content msg = text.
Proof.
  induction inputs as [|i inputs IH]; intros sys to from text Hsys He.
  - by apply elem_of_nil in He.
  - cbn in *. pose proof (step_ok i sys Hsys) as Hok1.
    pose proof (step_delivers_stored i sys to from text Hsys) as Hstep.
    destruct (step verify i sys) as [sys1 out1].
    specialize (IH sys1 to from text Hok1).
    pose proof (run_continues inputs sys1) as (_ & _ & Hpre).
    destruct (run verify inputs sys1) as [sys2 out2]. cbn in *.
    apply elem_of_app in He as [He|He].
    + destruct (Hstep He) as (msg & Hin & Hc). exists msg. split; [|done].
      destruct Hpre as [k ->]. apply elem_of_app. by left.
    + by apply IH.
Qed.

End Loop.

End StoreFacts.

(** ** Where the events of [send_message] come from *)

Module RoutingFacts.
Import AuthServer AuthFacts StoreShape StoreFacts Provenance.



Lemma send_message_unauthenticated (succeeds : StoreOp -> bool)
    (sock toEmail text : jsstring) (st : State) :
  socket_user st !! sock = None ->
  send_message succeeds sock toEmail text st =
    (st, [EmitTo sock (error (js "You must authenticate first"))], Settled Resolved).
Proof. intros H. unfold send_message, send_message_begin. by rewrite H. Qed.

(** The first conversation that holds the sender is the one a self-send
    finds, in any state. *)
Lemma findOne_self (a b : jsstring) (cs : list ConversationDoc) :
  b = a ->
  findOne a b cs = List.find (fun d => bool_decide (a ∈ participants d)) cs.
Proof.
  intros ->. unfold findOne. induction cs as [|d ds IH]; [done|].
  cbn. by rewrite all_of_same, IH.
Qed.

Lemma two_participants_with (a : jsstring) (ps : list jsstring) :
  length ps = 2%nat -> a ∈ ps -> exists other, ps = [a; other] \/ ps = [other; a].
Proof.
  intros Hlen Hin. destruct ps as [|x [|y [|z ps]]]; try done.
  apply elem_of_cons in Hin as [->|Hin].
  - exists y. by left.
  - apply list_elem_of_singleton in Hin as ->. exists x. by right.
Qed.

Section Trace.

Variable check : jsstring -> option User.









End Trace.

End RoutingFacts.

(** ** More on strings and on the map of [index.js] *)

Module MirrorFacts.
Import TrieServer TrieFacts TrieServerFacts TrieShape TrieShapeFacts.

Lemma chars_units_pair_free (s : jsstring) : chars s = units s -> pair_free s = true.
Proof.
  induction s as [|u s IH]; [done|].
  destruct s as [|v rest]; [done|].
  rewrite chars_cons_cons. cbn [pair_free].
  destruct (is_lead_surrogate u && is_trail_surrogate v); cbn.
  - intros H. inversion H.
  - intros H. apply IH. unfold units in *. cbn in *. by inversion H.
Qed.

Lemma map_get_set (k v k' : jsstring) (m : list (jsstring * jsstring)) :
  map_get k' (map_set k v m) = if decide (k' = k) then Some v else map_get k' m.
Proof.
  induction m as [|[k0 v0] m IH]; cbn.
  - destruct (decide (k = k')) as [->|Hne].
    + by rewrite decide_True.
    + by rewrite decide_False by congruence.
  - destruct (decide (k0 = k)) as [->|Hk]; cbn.
    + destruct (decide (k = k')) as [->|Hne].
      * by rewrite decide_True.
      * by rewrite decide_False by congruence.
    + destruct (decide (k0 = k')) as [->|Hk'].
      * by rewrite decide_False by congruence.
      * exact IH.
Qed.

Lemma map_get_delete (k k' : jsstring) (m : list (jsstring * jsstring)) :
  map_get k' (map_delete k m) = if decide (k' = k) then None else map_get k' m.
Proof.
  unfold map_delete. induction m as [|[k0 v0] m IH].
  - cbn. by destruct (decide (k' = k)).
  - rewrite filter_cons. cbn [fst]. destruct (decide (k0 <> k)) as [Hk|Hk].
    + cbn [map_get]. destruct (decide (k0 = k')) as [->|Hk'].
      * by rewrite decide_False by done.
      * exact IH.
    + apply dec_stable in Hk. subst k0. rewrite IH. cbn [map_get].
      destruct (decide (k' = k)) as [->|Hne]; [done|].
      by rewrite decide_False by congruence.
Qed.

Lemma agree_register (sock email e : jsstring) (st : Server) :
  agree_on e st -> agree_on e (register sock email st).
Proof.
  unfold agree_on. intros H. cbn. by rewrite search_insert, map_get_set, H.
Qed.

Lemma agree_disconnect (sock e : jsstring) (st : Server) :
  pair_free e = true -> agree_on e st -> agree_on e (disconnect sock st).
Proof.
  unfold agree_on, disconnect. intros Hp H.
  destruct (List.find _ _) as [[email x]|]; [|done].
  cbn. rewrite map_get_delete. destruct (decide (e = email)) as [->|Hne].
  - by apply search_remove_same.
  - by rewrite search_remove_other.
Qed.

Lemma agree_run (e : jsstring) (inputs : list Input) :
  pair_free e = true ->
  forall st, agree_on e st -> agree_on e (run inputs st).1.
Proof.
  intros Hp. induction inputs as [|i inputs IH]; intros st H; [done|].
  cbn. destruct (step i st) as [st1 out1] eqn:Hs.
  specialize (IH st1). destruct (run inputs st1) as [st2 out2]. cbn.
  apply IH. destruct i; cbn in Hs; inversion Hs; subst; try done.
  - by apply agree_register.
  - by apply agree_disconnect.
Qed.

Lemma find_map_set_fresh (sock e : jsstring) (m : list (jsstring * jsstring)) :
  (forall k, (k, sock) ∉ m) ->
  List.find (fun kv => bool_decide (kv.2 = sock)) (map_set e sock m) = Some (e, sock).
Proof.
  induction m as [|[k0 v0] m IH]; intros Hfresh; cbn.
  - by rewrite bool_decide_eq_true_2.
  - destruct (decide (k0 = e)) as [->|Hne]; cbn.
    + by rewrite bool_decide_eq_true_2.
    + rewrite bool_decide_eq_false_2.
      * apply IH. intros k Hin. apply (Hfresh k). by apply list_elem_of_further.
      * intros ->. apply (Hfresh k0). apply list_elem_of_here.
Qed.

End MirrorFacts.

(** * Further properties of the code *)

(** ** The trie *)

Module TrieExtras.
Import TrieServer TrieFacts TrieServerFacts TrieShape TrieShapeFacts MirrorFacts Scenario.

(** X1. On any trie, [insert(e, s)] binds [e] to [s] and leaves the result
    of [search] for every other email as it was, prefixes and extensions of
    [e] included. *)
Theorem insert_is_a_map_update (t : Trie) (e s e' : jsstring) :
  search e' (insert e s t) = if decide (e' = e) then Some s else search e' t.
Proof. apply search_insert. Qed.

(** X2. On any trie and for any two distinct emails, with or without
    surrogate pairs, [remove(e1)] leaves [search(e2)] as it was. *)
Theorem remove_keeps_every_other_email (t : Trie) (e1 e2 : jsstring)
    (Hne : e2 <> e1) :
  search e2 (remove e1 t) = search e2 t.
Proof. by apply search_remove_other. Qed.

Lemma remove_keeps_every_other_email_witness :
  let t := insert (js "ab") s2 (insert (js "a") s1 newTrie) in
  js "ab" <> js "a" /\ search (js "ab") (remove (js "a") t) = search (js "ab") t.
Proof.
  intros t.
  assert (js "ab" <> js "a") as Hne by (vm_compute; discriminate).
  split; [exact Hne|].
  exact (remove_keeps_every_other_email t (js "a") (js "ab") Hne).
Defined.

(** X3. On any trie, after [remove(e)] for an email without surrogate pair,
    [search(e)] returns [null]. *)
Theorem remove_unbinds (t : Trie) (e : jsstring) (Hp : pair_free e = true) :
  search e (remove e t) = None.
Proof. by apply search_remove_same. Qed.

Lemma remove_unbinds_witness :
  pair_free a_email = true /\
  search a_email (remove a_email (insert a_email s1 newTrie)) = None.
Proof.
  assert (pair_free a_email = true) as Hp by (vm_compute; reflexivity).
  split; [exact Hp|].
  exact (remove_unbinds (insert a_email s1 newTrie) a_email Hp).
Defined.

(** X4. A second [remove] of the same email changes nothing: the trie after
    two removals is the trie after one. *)
Theorem remove_twice (t : Trie) (e : jsstring) :
  remove e (remove e t) = remove e t.
Proof.
  unfold remove. cbn. by rewrite removeHelper_again.
Qed.

(** X5. A second [insert] of the same email overwrites the first: the trie
    is the one the second [insert] alone would give. *)
Theorem insert_twice (t : Trie) (e s1 s2 : jsstring) :
  insert e s2 (insert e s1 t) = insert e s2 t.
Proof.
  unfold insert. cbn. by rewrite insert_from_twice.
Qed.

(** X6. Inserts of two distinct emails commute: the trie does not depend on
    the order in which they were bound. *)
Theorem insert_commutes (t : Trie) (e1 e2 s1 s2 : jsstring) (Hne : e1 <> e2) :
  insert e1 s1 (insert e2 s2 t) = insert e2 s2 (insert e1 s1 t).
Proof.
  unfold insert. cbn. f_equal. apply insert_from_commute.
  intros H. by apply chars_inj in H.
Qed.

Lemma insert_commutes_witness :
  a_email <> b_email /\
  insert a_email s1 (insert b_email s2 newTrie) = insert b_email s2 (insert a_email s1 newTrie).
Proof.
  assert (a_email <> b_email) as Hne by (vm_compute; discriminate).
  split; [exact Hne|].
  exact (insert_commutes newTrie a_email b_email s1 s2 Hne).
Defined.

(** X7. On a trie built from the empty one by calls of [insert] and
    [remove], binding an email without surrogate pair that is not bound and
    removing it again gives back the very same trie: every node the insert
    created is pruned, and no other node is touched. *)
Theorem remove_undoes_insert (cs : list TrieCall) (e s : jsstring)
    (Hp : pair_free e = true)
    (Hfree : search e (calls cs newTrie) = None) :
  remove e (insert e s (calls cs newTrie)) = calls cs newTrie.
Proof.
  unfold remove, insert, search in *. cbn.
  rewrite (pair_free_chars e Hp) in *.
  rewrite removeHelper_insert_from.
  - by destruct (calls cs newTrie).
  - apply tidy_free_along; [|done]. apply tidy_calls. apply tidy_new.
Qed.

Lemma remove_undoes_insert_witness :
  let cs := [CallInsert (js "a@x.com.au") s3; CallInsert b_email s2; CallRemove b_email] in
  (pair_free a_email = true /\ search a_email (calls cs newTrie) = None) /\
  remove a_email (insert a_email s1 (calls cs newTrie)) = calls cs newTrie.
Proof.
  intros cs.
  assert (pair_free a_email = true) as Hp by (vm_compute; reflexivity).
  assert (search a_email (calls cs newTrie) = None) as Hfree by (vm_compute; reflexivity).
  split; [by split|].
  exact (remove_undoes_insert cs a_email s1 Hp Hfree).
Defined.

(** X8. On a trie built by calls of [insert] and [remove], [remove] of an
    email without surrogate pair that is not bound leaves the trie exactly
    as it is. *)
Theorem remove_unbound_changes_nothing (cs : list TrieCall) (e : jsstring)
    (Hp : pair_free e = true)
    (Hfree : search e (calls cs newTrie) = None) :
  remove e (calls cs newTrie) = calls cs newTrie.
Proof.
  unfold remove, search in *. rewrite (pair_free_chars e Hp) in Hfree.
  rewrite removeHelper_free.
  - by destruct (calls cs newTrie).
  - apply tidy_free_along; [|done]. apply tidy_calls. apply tidy_new.
Qed.

Lemma remove_unbound_changes_nothing_witness :
  let cs := [CallInsert a_email s1; CallInsert b_email s2] in
  (pair_free (js "a@x") = true /\ search (js "a@x") (calls cs newTrie) = None) /\
  remove (js "a@x") (calls cs newTrie) = calls cs newTrie.
Proof.
  intros cs.
  assert (pair_free (js "a@x") = true) as Hp by (vm_compute; reflexivity).
  assert (search (js "a@x") (calls cs newTrie) = None) as Hfree by (vm_compute; reflexivity).
  split; [by split|].
  exact (remove_unbound_changes_nothing cs (js "a@x") Hp Hfree).
Defined.

(** X9. On a trie built by calls of [insert] and [remove], [remove] of an
    email that contains a surrogate pair never changes anything, whether the
    email is bound or not: the walk by code unit follows no path that a walk
    by code point has made. *)
Theorem remove_with_surrogate_pair_changes_nothing (cs : list TrieCall) (e : jsstring)
    (Hp : pair_free e = false) :
  remove e (calls cs newTrie) = calls cs newTrie.
Proof.
  unfold remove. rewrite removeHelper_free.
  - by destruct (calls cs newTrie).
  - apply tidy_free_along; [apply tidy_calls, tidy_new|].
    destruct (search_from (units e) (root (calls cs newTrie))) as [s|] eqn:Hs; [|done].
    apply search_from_calls in Hs as [Hs|(e' & _ & He')].
    + by rewrite search_from_new in Hs.
    + symmetry in He'. pose proof (chars_units_inj e' e He') as ->.
      apply chars_units_pair_free in He'. congruence.
Qed.

Lemma remove_with_surrogate_pair_changes_nothing_witness :
  let cs := [CallInsert grin_email s1; CallInsert b_email s2] in
  pair_free grin_email = false /\
  remove grin_email (calls cs newTrie) = calls cs newTrie.
Proof.
  intros cs.
  assert (pair_free grin_email = false) as Hp by (vm_compute; reflexivity).
  split; [exact Hp|].
  exact (remove_with_surrogate_pair_changes_nothing cs grin_email Hp).
Defined.

(** X10. A trie built by calls of [insert] and [remove] has no dead node:
    every node other than the root ends an email or has a child, and a node
    carries a socket id exactly when it ends an email. *)
Theorem no_dead_node (cs : list TrieCall) (p : list jsstring) (m : TrieNode)
    (Hm : node_at p (root (calls cs newTrie)) = Some m) :
  (isEndOfWord m = true <-> is_Some (socketId m)) /\
  (p <> [] -> isEndOfWord m = true \/ children m <> ∅).
Proof.
  destruct (node_at_tidy p (root (calls cs newTrie)) m) as [Ht Hb];
    [apply tidy_calls, tidy_new | done |].
  split; [apply (Ht [])|].
  intros Hp. specialize (Hb Hp). unfold blank in Hb.
  apply andb_false_iff in Hb as [Hb|Hb].
  - left. by apply negb_false_iff in Hb.
  - right. intros He. apply no_children_spec in He. congruence.
Qed.

Lemma no_dead_node_witness :
  let cs := [CallInsert (js "ab") s1; CallInsert (js "ac") s2; CallRemove (js "ab")] in
  node_at [js "a"] (root (calls cs newTrie))
    = Some (mkTrieNode {[ js "c" := mkTrieNode ∅ true (Some s2) ]} false None) /\
  (js "a" :: [] <> [] ->
   false = true \/ ({[ js "c" := mkTrieNode ∅ true (Some s2) ]} : gmap jsstring TrieNode) <> ∅).
Proof.
  intros cs.
  assert (node_at [js "a"] (root (calls cs newTrie))
          = Some (mkTrieNode {[ js "c" := mkTrieNode ∅ true (Some s2) ]} false None)) as Hm
    by (vm_compute; reflexivity).
  split; [exact Hm|].
  exact (proj2 (no_dead_node cs [js "a"] _ Hm)).
Defined.

End TrieExtras.

(** ** The server of [index.js] *)

Module TrieServerExtras.
Import TrieServer TrieFacts TrieServerFacts TrieShape TrieShapeFacts MirrorFacts Scenario.

Lemma map_get_elem (e s : jsstring) (m : list (jsstring * jsstring)) :
  map_get e m = Some s -> (e, s) ∈ m.
Proof.
  induction m as [|[k v] m IH]; cbn; [done|].
  destruct (decide (k = e)) as [->|Hne].
  - intros [= ->]. apply list_elem_of_here.
  - intros H. by apply list_elem_of_further, IH.
Qed.

(** X11. After any events, the keys of [emailToSocket] are distinct and
    every binding of the map is a binding of the trie: what the disconnect
    handler finds in the map, [search] finds in the trie. *)
Theorem map_bindings_are_in_the_trie (inputs : list Input) (e s : jsstring)
    (Hget : map_get e (emailToSocket (run inputs initial).1) = Some s) :
  search e (trie (run inputs initial).1) = Some s /\
  NoDup (emailToSocket (run inputs initial).1).*1.
Proof.
  destruct (mirrored_run inputs initial mirrored_initial) as [Hnd Hm].
  split; [|done]. by apply Hm, map_get_elem.
Qed.

Lemma map_bindings_are_in_the_trie_witness :
  map_get b_email (emailToSocket (run hello initial).1) = Some s2 /\
  search b_email (trie (run hello initial).1) = Some s2.
Proof.
  assert (map_get b_email (emailToSocket (run hello initial).1) = Some s2) as Hget
    by (vm_compute; reflexivity).
  split; [exact Hget|].
  exact (proj1 (map_bindings_are_in_the_trie hello b_email s2 Hget)).
Defined.

(** X12. After any events, the trie and the map give the same answer for
    every email without surrogate pair: [trie.search(e)] is
    [emailToSocket.get(e)], [null] standing for [undefined]. *)
Theorem trie_and_map_agree (inputs : list Input) (e : jsstring)
    (Hp : pair_free e = true) :
  search e (trie (run inputs initial).1) = map_get e (emailToSocket (run inputs initial).1).
Proof.
  apply (agree_run e inputs Hp initial). unfold agree_on. cbn. apply search_newTrie.
Qed.

Lemma trie_and_map_agree_witness :
  pair_free a_email = true /\
  search a_email (trie (run two_registrations initial).1)
    = map_get a_email (emailToSocket (run two_registrations initial).1).
Proof.
  assert (pair_free a_email = true) as Hp by (vm_compute; reflexivity).
  split; [exact Hp|].
  exact (trie_and_map_agree two_registrations a_email Hp).
Defined.

(** X13. A socket that holds no email, registers one without surrogate pair
    and closes leaves nothing behind: the email is bound neither in the trie
    nor in the map, a message to it is answered by [error_message], and the
    binding of every other email in the trie is as before. *)
Theorem register_then_disconnect (st : Server) (sock e from message : jsstring)
    (Hnone : forall k, (k, sock) ∉ emailToSocket st)
    (Hp : pair_free e = true) :
  let st' := disconnect sock (register sock e st) in
  search e (trie st') = None /\
  map_get e (emailToSocket st') = None /\
  send_message from e message st' = [EmitTo from (error_message (not_found_text e))] /\
  forall e', e' <> e -> search e' (trie st') = search e' (trie st).
Proof.
  intros st'.
  assert (st' = mkServer (remove e (insert e sock (trie st)))
                         (map_delete e (map_set e sock (emailToSocket st)))) as ->.
  { subst st'. unfold disconnect, register. cbn [emailToSocket trie].
    by rewrite (find_map_set_fresh sock e _ Hnone). }
  cbn [trie emailToSocket].
  assert (search e (remove e (insert e sock (trie st))) = None) as Hgone
    by (by apply search_remove_same).
  split; [done|]. split; [|split].
  - rewrite map_get_delete. by rewrite decide_True.
  - unfold send_message. cbn [trie]. by rewrite Hgone.
  - intros e' Hne. rewrite search_remove_other by done.
    rewrite search_insert. by rewrite decide_False.
Qed.

Lemma register_then_disconnect_witness :
  let st := (run hello initial).1 in
  ((forall k, (k, s3) ∉ emailToSocket st) /\ pair_free (js "c@x.com") = true) /\
  search (js "c@x.com") (trie (disconnect s3 (register s3 (js "c@x.com") st))) = None.
Proof.
  intros st.
  assert (forall k, (k, s3) ∉ emailToSocket st) as Hnone.
  { intros k. vm_compute. intros H.
    repeat (apply elem_of_cons in H as [H|H]; [discriminate H|]).
    by apply elem_of_nil in H. }
  assert (pair_free (js "c@x.com") = true) as Hp by (vm_compute; reflexivity).
  split; [by split|].
  exact (proj1 (register_then_disconnect st s3 (js "c@x.com") s1 (js "hi") Hnone Hp)).
Defined.

(** X14. Once a socket with a non-empty id has registered an email, a
    message to that email from any socket goes to it, whatever socket the
    email was bound to before: the last registration wins. *)
Theorem registered_email_receives (st : Server) (sock e from message : jsstring)
    (Hid : truthy sock = true) :
  send_message from e message (register sock e st) =
    [EmitTo sock (receive_message from message)].
Proof.
  unfold send_message, register. cbn [trie].
  rewrite search_insert, decide_True by done. by rewrite Hid.
Qed.

Lemma registered_email_receives_witness :
  truthy s3 = true /\
  send_message s1 b_email (js "hi") (register s3 b_email (run hello initial).1) =
    [EmitTo s3 (receive_message s1 (js "hi"))].
Proof.
  assert (truthy s3 = true) as Hid by reflexivity.
  split; [exact Hid|].
  exact (registered_email_receives (run hello initial).1 s3 b_email s1 (js "hi") Hid).
Defined.

(** X26. The disconnect handler of [index.js] compares socket ids: after
    any events, when the trie binds an email to a socket, the disconnect of
    any other socket, even run twice, leaves that binding in place. *)
Theorem disconnect_keeps_the_binding_of_another_socket
    (inputs : list Input) (e h1 h2 : jsstring)
    (Hbound : search e (trie (run inputs initial).1) = Some h2)
    (Hne : h1 <> h2) :
  search e (trie (disconnect h1 (run inputs initial).1)) = Some h2 /\
  search e (trie (disconnect h1 (disconnect h1 (run inputs initial).1))) = Some h2.
Proof.
  pose proof (mirrored_run inputs initial mirrored_initial) as Hm.
  split.
  - by apply disconnect_keeps_other_socket.
  - by apply disconnect_twice_keeps_other_socket.
Qed.

Lemma disconnect_keeps_the_binding_of_another_socket_witness :
  let inputs := [Connect s1; Register s1 a_email; Connect s2; Register s2 a_email] in
  (search a_email (trie (run inputs initial).1) = Some s2 /\ s1 <> s2) /\
  search a_email (trie (disconnect s1 (run inputs initial).1)) = Some s2.
Proof.
  intros inputs.
  assert (search a_email (trie (run inputs initial).1) = Some s2) as Hbound
    by (vm_compute; reflexivity).
  assert (s1 <> s2) as Hne by (vm_compute; discriminate).
  split; [by split|].
  exact (proj1 (disconnect_keeps_the_binding_of_another_socket inputs a_email s1 s2
                  Hbound Hne)).
Defined.

End TrieServerExtras.

(** ** The server of [part_000] *)

Module AuthExtras.
Import AuthServer AuthFacts StoreShape StoreFacts RoutingFacts Scenario.

(** X15. After any events and store replies, in any order and with any
    failures, every stored conversation has exactly two participants. *)
Theorem conversations_have_two_participants (check : jsstring -> option User)
    (inputs : list Input) (c : ConversationDoc)
    (Hc : c ∈ conversations (state (run check inputs boot).1)) :
  length (participants c) = 2%nat.
Proof.
  destruct (run_ok check inputs boot boot_ok) as [[Hcs _] _].
  apply list_elem_of_lookup in Hc as [i Hi]. by destruct (Hcs i c Hi) as (_ & H & _).
Qed.

Lemma conversations_have_two_participants_witness :
  let c := mkConversation 1 [u_id alice; u_id bob] (Some 1%nat) in
  c ∈ conversations (state (run verify two_quick_sends boot).1) /\
  length (participants c) = 2%nat.
Proof.
  intros c.
  assert (c ∈ conversations (state (run verify two_quick_sends boot).1)) as Hc.
  { vm_compute. apply list_elem_of_further, list_elem_of_here. }
  split; [exact Hc|].
  exact (conversations_have_two_participants verify two_quick_sends c Hc).
Defined.

(** X16. After any events and store replies, every stored message belongs
    to a stored conversation, and its sender is one of the participants of
    that conversation. *)
Theorem message_sender_is_a_participant (check : jsstring -> option User)
    (inputs : list Input) (msg : MessageDoc)
    (Hmsg : msg ∈ messages (state (run check inputs boot).1)) :
  exists c,
    c ∈ conversations (state (run check inputs boot).1) /\
    conv_id c = conversation msg /\ sender msg ∈ participants c.
Proof.
  destruct (run_ok check inputs boot boot_ok) as [[Hcs Hms] _].
  apply list_elem_of_lookup in Hmsg as [j Hj].
  destruct (Hms j msg Hj) as [_ (c & Hc & Hin)].
  exists c. split; [by apply (list_elem_of_lookup_2 _ (conversation msg))|].
  split; [|done]. by destruct (Hcs _ c Hc).
Qed.

Lemma message_sender_is_a_participant_witness :
  let st := state (run verify two_quick_sends boot).1 in
  let msg := mkMessage 1 1 (u_id alice) (js "y") in
  msg ∈ messages st /\
  exists c, c ∈ conversations st /\ conv_id c = 1%nat /\ u_id alice ∈ participants c.
Proof.
  intros st msg.
  assert (msg ∈ messages st) as H.
  { vm_compute. apply list_elem_of_further, list_elem_of_here. }
  split; [exact H|].
  exact (message_sender_is_a_participant verify two_quick_sends msg H).
Defined.

(** X17. After any events and store replies, the [lastMessage] of a
    conversation, when it is not [null], is the [_id] of a stored message of
    that very conversation. *)
Theorem lastMessage_is_a_message_of_the_conversation
    (check : jsstring -> option User) (inputs : list Input)
    (m : nat) (c : ConversationDoc)
    (Hc : c ∈ conversations (state (run check inputs boot).1))
    (Hlast : lastMessage c = Some m) :
  exists msg,
    msg ∈ messages (state (run check inputs boot).1) /\
    msg_id msg = m /\ conversation msg = conv_id c.
Proof.
  destruct (run_ok check inputs boot boot_ok) as [[Hcs Hms] _].
  apply list_elem_of_lookup in Hc as [i Hi].
  destruct (Hcs i c Hi) as (Hid & _ & Hl).
  destruct (Hl m Hlast) as (msg & Hmsg & Hconv).
  exists msg. split; [by apply (list_elem_of_lookup_2 _ m)|].
  split; [|congruence]. by destruct (Hms m msg Hmsg).
Qed.

Lemma lastMessage_is_a_message_of_the_conversation_witness :
  let st := state (run verify self_then_other boot).1 in
  let c := mkConversation 1 [u_id alice; u_id bob] (Some 1%nat) in
  (c ∈ conversations st /\ lastMessage c = Some 1%nat) /\
  exists msg, msg ∈ messages st /\ msg_id msg = 1%nat /\ conversation msg = 1%nat.
Proof.
  intros st c.
  assert (c ∈ conversations st) as Hc.
  { vm_compute. apply list_elem_of_further, list_elem_of_here. }
  split; [by split|].
  exact (lastMessage_is_a_message_of_the_conversation verify self_then_other 1 c Hc
           eq_refl).
Defined.

(** X18. Whatever is delivered is stored: for every [receive_message] event
    the server emits, in any interleaving of the runs and with any failures,
    a message with that content is in the [Message] collection at the end. *)
Theorem delivered_messages_are_stored (check : jsstring -> option User)
    (inputs : list Input) (to from text : jsstring)
    (Hsent : EmitTo to (receive_message from text) ∈ (run check inputs boot).2) :
  exists msg,
    msg ∈ messages (state (run check inputs boot).1) /\ content msg = text.
Proof. by apply (run_delivers_stored check inputs boot to from text boot_ok). Qed.

Lemma delivered_messages_are_stored_witness :
  EmitTo s2 (receive_message a_email (js "y")) ∈ (run verify two_quick_sends boot).2 /\
  exists msg,
    msg ∈ messages (state (run verify two_quick_sends boot).1) /\ content msg = js "y".
Proof.
  assert (EmitTo s2 (receive_message a_email (js "y"))
            ∈ (run verify two_quick_sends boot).2) as H.
  { vm_compute. do 3 apply list_elem_of_further. apply list_elem_of_here. }
  split; [exact H|].
  exact (delivered_messages_are_stored verify two_quick_sends s2 a_email (js "y") H).
Defined.

(** X19. The history is append-only: whatever events and store replies
    follow, from any state, the messages stored so far stay the first
    messages of the collection, unchanged, every conversation keeps its
    position, id and participants, and a socket that has a [user] keeps one,
    also when it disconnects. *)
Theorem history_is_append_only (check : jsstring -> option User)
    (inputs : list Input) (sys : System) :
  let st := state sys in
  let st' := state (run check inputs sys).1 in
  messages st `prefix_of` messages st' /\
  (forall i c, conversations st !! i = Some c ->
     exists c', conversations st' !! i = Some c' /\
                conv_id c' = conv_id c /\ participants c' = participants c) /\
  (forall s, is_Some (socket_user st !! s) -> is_Some (socket_user st' !! s)).
Proof.
  destruct (run_continues check inputs sys) as (Hu & Hc & Hm). by repeat split.
Qed.

(** X20. In the event loop a run of [send_message] is rejected only by a
    failed store operation: for every suspended run of a reachable state, a
    successful reply never ends it with a rejection (the read of
    [socket.user.email] before the emit cannot fail). *)
Theorem only_store_failures_reject (check : jsstring -> option User)
    (inputs : list Input) (n : nat) (t : Task)
    (Ht : pending (run check inputs boot).1 !! n = Some t) :
  (resume true t (state (run check inputs boot).1)).2 <> Settled Rejected.
Proof.
  destruct (run_ok check inputs boot boot_ok) as [Hst Hts].
  rewrite Forall_lookup in Hts.
  by apply (resume_ok true t _ Hst (Hts n t Ht)).
Qed.

Lemma only_store_failures_reject_witness :
  let inputs := both_online ++ [SendMessage s1 b_email (js "x")] in
  let t := mkTask s1 (js "x") (mkPresence s2 (u_id bob)) (u_id alice) (u_id bob) FindOne in
  pending (run verify inputs boot).1 !! 0%nat = Some t /\
  (resume true t (state (run verify inputs boot).1)).2 <> Settled Rejected.
Proof.
  intros inputs t.
  assert (pending (run verify inputs boot).1 !! 0%nat = Some t) as Ht
    by (vm_compute; reflexivity).
  split; [exact Ht|].
  exact (only_store_failures_reject verify inputs 0 t Ht).
Defined.

(** X21. A run of [send_message] that no other run interleaves with never
    gives a pair of distinct users a second conversation, whichever of its
    store operations fail. *)
Theorem one_run_keeps_pairs_unique (succeeds : StoreOp -> bool)
    (sock toEmail text : jsstring) (st : State) (x y : jsstring)
    (Hne : x <> y)
    (Hle : (pair_count x y (conversations st) <= 1)%nat) :
  (pair_count x y (conversations (send_message succeeds sock toEmail text st).1.1) <= 1)%nat.
Proof.
  destruct (send_message_conversations succeeds sock toEmail text st)
    as [->|(a & b & [->|(c & m & ->)])]; [done | |].
  - by apply with_conversation_unique.
  - rewrite pair_count_save. by apply with_conversation_unique.
Qed.

Lemma one_run_keeps_pairs_unique_witness :
  let st := state (run verify both_online boot).1 in
  (u_id alice <> u_id bob /\
   (pair_count (u_id alice) (u_id bob) (conversations st) <= 1)%nat) /\
  (pair_count (u_id alice) (u_id bob)
     (conversations (send_message message_fails s1 b_email (js "hi") st).1.1) <= 1)%nat.
Proof.
  intros st.
  assert (u_id alice <> u_id bob) as Hne by (vm_compute; discriminate).
  assert (pair_count (u_id alice) (u_id bob) (conversations st) <= 1)%nat as Hle
    by (vm_compute; lia).
  split; [by split|].
  exact (one_run_keeps_pairs_unique message_fails s1 b_email (js "hi") st
           (u_id alice) (u_id bob) Hne Hle).
Defined.

(** X22. What a failed run leaves behind.  When the pair has no
    conversation and [Message.create] fails, the conversation just created
    stays in the store, without any message and with [lastMessage] null.
    When the final [save] fails, the message is stored, the conversation
    does not point at it, and nothing is delivered.  In both cases nothing
    is emitted and the promise rejects. *)
Theorem failed_run_leftovers (succeeds : StoreOp -> bool)
    (sock toEmail text : jsstring) (st : State) (user : User) (rcpt : Presence)
    (Hu : socket_user st !! sock = Some user)
    (Hr : connectedUsers st !! toEmail = Some rcpt)
    (Hfind : succeeds OpFindOne = true)
    (Hcreate : succeeds OpConversationCreate = true) :
  let a := u_id user in
  let b := userId rcpt in
  let cs := conversations st in
  let ms := messages st in
  (findOne a b cs = None -> succeeds OpMessageCreate = false ->
   send_message succeeds sock toEmail text st =
     (mkState (connectedUsers st) (socket_user st)
        (cs ++ [mkConversation (length cs) [a; b] None]) ms,
      [], Settled Rejected)) /\
  (succeeds OpMessageCreate = true -> succeeds OpSave = false ->
   send_message succeeds sock toEmail text st =
     (mkState (connectedUsers st) (socket_user st)
        (with_conversation a b cs)
        (ms ++ [mkMessage (length ms) (resolved_conversation a b cs) a text]),
      [], Settled Rejected)).
Proof.
  intros a b cs ms. subst a b cs ms. split.
  - intros Hf Hm. run_send Hu Hr. rewrite Hfind. cbn -[lookup findOne save_lastMessage].
    rewrite Hf. cbn -[lookup findOne save_lastMessage].
    rewrite Hcreate. cbn -[lookup findOne save_lastMessage].
    rewrite Hm. reflexivity.
  - intros Hm Hs. unfold with_conversation, resolved_conversation.
    run_send Hu Hr. rewrite Hfind. cbn -[lookup findOne save_lastMessage].
    destruct (findOne (u_id user) (userId rcpt) (conversations st)) as [c|] eqn:Hf;
      cbn -[lookup findOne save_lastMessage].
    + rewrite Hm. cbn -[lookup findOne save_lastMessage]. rewrite Hs. reflexivity.
    + rewrite Hcreate. cbn -[lookup findOne save_lastMessage].
      rewrite Hm. cbn -[lookup findOne save_lastMessage]. rewrite Hs. reflexivity.
Qed.

Lemma failed_run_leftovers_witness :
  let st := state (run verify both_online boot).1 in
  (socket_user st !! s1 = Some alice /\
   connectedUsers st !! b_email = Some (mkPresence s2 (u_id bob))) /\
  send_message message_fails s1 b_email (js "hi") st =
    (mkState (connectedUsers st) (socket_user st)
       (conversations st ++
          [mkConversation (length (conversations st)) [u_id alice; u_id bob] None])
       (messages st),
     [], Settled Rejected).
Proof.
  intros st.
  assert (socket_user st !! s1 = Some alice) as Hu by (vm_compute; reflexivity).
  assert (connectedUsers st !! b_email = Some (mkPresence s2 (u_id bob))) as Hr
    by (vm_compute; reflexivity).
  split; [by split|].
  refine (proj1 (failed_run_leftovers message_fails s1 b_email (js "hi") st alice
                   (mkPresence s2 (u_id bob)) Hu Hr eq_refl eq_refl) _ eq_refl).
  vm_compute. reflexivity.
Defined.



(** X24. After the disconnect handler of a socket that has a [user] has
    run, a send to that user's email from a socket that has a [user] is
    refused with [error "Recipient not online"] and changes nothing, whatever
    socket the entry of that email pointed at. *)
Theorem after_disconnect_recipient_is_offline (succeeds : StoreOp -> bool)
    (sock from text : jsstring) (st : State) (user sender : User)
    (Hu : socket_user st !! sock = Some user)
    (Hs : socket_user st !! from = Some sender) :
  send_message succeeds from (u_email user) text (disconnect sock st) =
    (disconnect sock st, [EmitTo from (error (js "Recipient not online"))], Settled Resolved).
Proof.
  unfold send_message, send_message_begin.
  rewrite (disconnect_deletes_unconditionally sock st user Hu).
  unfold disconnect at 1. rewrite Hu. cbn [socket_user]. by rewrite Hs.
Qed.

Lemma after_disconnect_recipient_is_offline_witness :
  let st := state (run verify both_online boot).1 in
  (socket_user st !! s2 = Some bob /\ socket_user st !! s1 = Some alice) /\
  send_message all_succeed s1 b_email (js "hi") (disconnect s2 st) =
    (disconnect s2 st, [EmitTo s1 (error (js "Recipient not online"))], Settled Resolved).
Proof.
  intros st.
  assert (socket_user st !! s2 = Some bob) as Hu by (vm_compute; reflexivity).
  assert (socket_user st !! s1 = Some alice) as Hs by (vm_compute; reflexivity).
  split; [by split|].
  exact (after_disconnect_recipient_is_offline all_succeed s2 s1 (js "hi") st bob alice Hu Hs).
Defined.

(** X25. Runs that do not overlap keep one conversation per pair: after
    any sends between two users, in both directions, each run ended before
    the next begins and every store operation succeeding, from a state with
    at most one conversation of the pair, there is exactly one conversation
    of the pair and every message of these sends belongs to it. *)
Theorem sends_in_turn_share_one_conversation (succeeds : StoreOp -> bool) (a b : jsstring)
    (sends : list (jsstring * jsstring * jsstring)) (st : State)
    (Hok : forall op, succeeds op = true)
    (Hall : Forall (between st a b) sends)
    (Hsome : sends <> [])
    (Hle : (pair_count a b (conversations st) <= 1)%nat) :
  let st' := send_each succeeds sends st in
  pair_count a b (conversations st') = 1%nat /\
  exists k new,
    conv_id <$> findOne a b (conversations st') = Some k /\
    messages st' = messages st ++ new /\
    length new = length sends /\
    Forall (fun m => conversation m = k) new.
Proof. by apply send_each_one_conversation. Qed.

Lemma sends_in_turn_share_one_conversation_witness :
  let st := state (run verify both_online boot).1 in
  let sends := [(s1, b_email, js "x"); (s2, a_email, js "y"); (s1, b_email, js "z")] in
  (Forall (between st (u_id alice) (u_id bob)) sends /\ sends <> [] /\
   (pair_count (u_id alice) (u_id bob) (conversations st) <= 1)%nat) /\
  pair_count (u_id alice) (u_id bob)
    (conversations (send_each all_succeed sends st)) = 1%nat.
Proof.
  intros st sends.
  assert (socket_user st !! s1 = Some alice) as Hu1 by (vm_compute; reflexivity).
  assert (socket_user st !! s2 = Some bob) as Hu2 by (vm_compute; reflexivity).
  assert (connectedUsers st !! a_email = Some (mkPresence s1 (u_id alice))) as Hr1
    by (vm_compute; reflexivity).
  assert (connectedUsers st !! b_email = Some (mkPresence s2 (u_id bob))) as Hr2
    by (vm_compute; reflexivity).
  assert (Forall (between st (u_id alice) (u_id bob)) sends) as Hall.
  { repeat apply Forall_cons_2; [| | |apply Forall_nil_2].
    - exists alice, (mkPresence s2 (u_id bob)). split; [done|]. split; [done|]. by left.
    - exists bob, (mkPresence s1 (u_id alice)). split; [done|]. split; [done|]. by right.
    - exists alice, (mkPresence s2 (u_id bob)). split; [done|]. split; [done|]. by left. }
  assert (sends <> []) as Hsome by done.
  assert (pair_count (u_id alice) (u_id bob) (conversations st) <= 1)%nat as Hle
    by (vm_compute; lia).
  split; [by repeat split|].
  exact (proj1 (sends_in_turn_share_one_conversation all_succeed (u_id alice) (u_id bob)
                  sends st (fun _ => eq_refl) Hall Hsome Hle)).
Defined.

End AuthExtras.

(** ** Delivery and self-sends on [part_000] *)

Module RoutingClaims.
Import AuthServer AuthFacts StoreShape StoreFacts Provenance RoutingFacts Scenario.



(** When the sending socket authenticates as the second user while its send
    awaits the store, the event that reaches the second user's socket has
    the second user's own email in [from]; the stored message keeps the
    first user's id as its sender. *)
Lemma from_after_reauthentication :
  let r := run verify reauthenticates_mid_send boot in
  last r.2 = Some (EmitTo s2 (receive_message b_email (js "hi"))) /\
  sender <$> messages (state r.1) = [u_id alice] /\
  a_email <> b_email.
Proof. vm_compute. repeat split; done. Qed.

(** C10, amended.  When the recipient's user id is the sender's own, the
    query [$all: [senderId, receiverId]] matches every conversation that
    holds the sender, and [findOne] gives the first of them in the order of
    the collection.  In a run that no other handler interleaves with and
    whose store operations succeed: when no conversation holds the sender,
    the self-send creates the conversation [[sender; sender]] and files its
    message under it; when the sender has a conversation, in any reachable
    state, no conversation is created and the message is filed under the
    first conversation that holds the sender, which has two participants,
    the sender and one other entry.  That entry is another user whenever the
    store has no conversation [[sender; sender]]. *)
Theorem C10_self_send_joins_first_conversation :
  (forall (check : jsstring -> option User) (inputs : list Input)
          (succeeds : StoreOp -> bool) (sock toEmail text : jsstring)
          (user : User) (rcpt : Presence) (c : ConversationDoc),
     let st := state (run check inputs boot).1 in
     let st' := (send_message succeeds sock toEmail text st).1.1 in
     socket_user st !! sock = Some user ->
     connectedUsers st !! toEmail = Some rcpt ->
     userId rcpt = u_id user ->
     (forall op, succeeds op = true) ->
     List.find (fun d => bool_decide (u_id user ∈ participants d)) (conversations st)
       = Some c ->
     (forall d, all_of (u_id user) (userId rcpt) d
                = bool_decide (u_id user ∈ participants d)) /\
     findOne (u_id user) (userId rcpt) (conversations st) = Some c /\
     conversations st'
       = save_lastMessage (conv_id c) (length (messages st)) (conversations st) /\
     length (conversations st') = length (conversations st) /\
     messages st'
       = messages st ++ [mkMessage (length (messages st)) (conv_id c) (u_id user) text] /\
     c ∈ conversations st /\
     (exists other,
        participants c = [u_id user; other] \/ participants c = [other; u_id user]) /\
     ((forall d, d ∈ conversations st -> participants d <> [u_id user; u_id user]) ->
      exists other,
        other <> u_id user /\
        (participants c = [u_id user; other] \/ participants c = [other; u_id user]))) /\
  (forall (succeeds : StoreOp -> bool) (sock toEmail text : jsstring) (st : State)
          (user : User) (rcpt : Presence),
     let st' := (send_message succeeds sock toEmail text st).1.1 in
     let k := length (conversations st) in
     socket_user st !! sock = Some user ->
     connectedUsers st !! toEmail = Some rcpt ->
     userId rcpt = u_id user ->
     (forall op, succeeds op = true) ->
     List.find (fun d => bool_decide (u_id user ∈ participants d)) (conversations st)
       = None ->
     conversations st'
       = save_lastMessage k (length (messages st))
           (conversations st ++ [mkConversation k [u_id user; u_id user] None]) /\
     messages st'
       = messages st ++ [mkMessage (length (messages st)) k (u_id user) text]).
Proof.
  split.
  - intros check inputs succeeds sock toEmail text user rcpt c st st' Hu Hr Hself Hok Hfirst.
    assert (forall d, all_of (u_id user) (userId rcpt) d
                      = bool_decide (u_id user ∈ participants d)) as Hdeg.
    { intros d. rewrite Hself. apply all_of_same. }
    assert (findOne (u_id user) (userId rcpt) (conversations st) = Some c) as Hfind
      by (by rewrite (findOne_self _ _ _ Hself)).
    destruct (findOne_Some _ _ _ _ Hfind) as [Hin Hall].
    assert (exists other,
              participants c = [u_id user; other] \/ participants c = [other; u_id user])
      as Htwo.
    { apply two_participants_with.
      - destruct (run_ok check inputs boot boot_ok) as [[Hcs _] _].
        apply list_elem_of_lookup in Hin as [i Hi]. by destruct (Hcs i c Hi) as (_ & H & _).
      - rewrite Hdeg in Hall. by apply bool_decide_eq_true in Hall. }
    subst st'.
    rewrite (send_message_succeeds succeeds sock toEmail text st user rcpt Hu Hr Hok).
    cbn [fst]. unfold after_send, resolved_conversation, with_conversation.
    rewrite Hfind. cbn [conversations messages].
    split; [done|]. split; [done|]. split; [done|].
    split; [unfold save_lastMessage; by rewrite length_fmap|].
    split; [done|]. split; [done|]. split; [done|].
    intros Hnone. destruct Htwo as [other Hp]. exists other. split; [|done].
    intros ->. apply (Hnone c Hin). by destruct Hp.
  - intros succeeds sock toEmail text st user rcpt st' k Hu Hr Hself Hok Hnone.
    assert (findOne (u_id user) (userId rcpt) (conversations st) = None) as Hfind
      by (by rewrite (findOne_self _ _ _ Hself)).
    subst st' k.
    rewrite (send_message_succeeds succeeds sock toEmail text st user rcpt Hu Hr Hok).
    cbn [fst]. unfold after_send, resolved_conversation, with_conversation.
    rewrite Hfind, Hself. by cbn [conversations messages].
Qed.

(** C10 for the first user writing to herself after she wrote to the
    second user, and for her writing to herself first. *)
Lemma C10_self_send_joins_first_conversation_witness :
  let inputs :=
    both_online ++
    [SendMessage s1 b_email (js "hi");
     StoreReply 0 true; StoreReply 0 true; StoreReply 0 true; StoreReply 0 true] in
  let st := state (run verify inputs boot).1 in
  let c := mkConversation 0 [u_id alice; u_id bob] (Some 0%nat) in
  let st0 := state (run verify both_online boot).1 in
  (socket_user st !! s1 = Some alice /\
   connectedUsers st !! a_email = Some (mkPresence s1 (u_id alice)) /\
   List.find (fun d => bool_decide (u_id alice ∈ participants d)) (conversations st)
     = Some c /\
   (forall d, d ∈ conversations st -> participants d <> [u_id alice; u_id alice]) /\
   socket_user st0 !! s1 = Some alice /\
   connectedUsers st0 !! a_email = Some (mkPresence s1 (u_id alice)) /\
   List.find (fun d => bool_decide (u_id alice ∈ participants d)) (conversations st0)
     = None) /\
  messages (send_message all_succeed s1 a_email (js "memo") st).1.1 =
    messages st ++ [mkMessage (length (messages st)) 0 (u_id alice) (js "memo")] /\
  (exists other,
     other <> u_id alice /\
     (participants c = [u_id alice; other] \/ participants c = [other; u_id alice])) /\
  messages (send_message all_succeed s1 a_email (js "memo") st0).1.1 =
    messages st0 ++ [mkMessage (length (messages st0)) (length (conversations st0))
                       (u_id alice) (js "memo")].
Proof.
  intros inputs st c st0.
  assert (socket_user st !! s1 = Some alice) as Hu by (vm_compute; reflexivity).
  assert (connectedUsers st !! a_email = Some (mkPresence s1 (u_id alice))) as Hr
    by (vm_compute; reflexivity).
  assert (List.find (fun d => bool_decide (u_id alice ∈ participants d)) (conversations st)
          = Some c) as Hfirst by (vm_compute; reflexivity).
  assert (forall d, d ∈ conversations st -> participants d <> [u_id alice; u_id alice])
    as Hnone.
  { intros d Hd. vm_compute in Hd. apply list_elem_of_singleton in Hd. subst d.
    vm_compute. discriminate. }
  assert (socket_user st0 !! s1 = Some alice) as Hu0 by (vm_compute; reflexivity).
  assert (connectedUsers st0 !! a_email = Some (mkPresence s1 (u_id alice))) as Hr0
    by (vm_compute; reflexivity).
  assert (List.find (fun d => bool_decide (u_id alice ∈ participants d)) (conversations st0)
          = None) as Hnone0 by (vm_compute; reflexivity).
  pose proof (proj1 C10_self_send_joins_first_conversation verify inputs all_succeed
                s1 a_email (js "memo") alice (mkPresence s1 (u_id alice)) c
                Hu Hr eq_refl (fun _ => eq_refl) Hfirst)
    as (_ & _ & _ & _ & Hmsg & _ & _ & Hother).
  pose proof (proj2 C10_self_send_joins_first_conversation all_succeed
                s1 a_email (js "memo") st0 alice (mkPresence s1 (u_id alice))
                Hu0 Hr0 eq_refl (fun _ => eq_refl) Hnone0) as [_ Hmsg0].
  split; [by repeat split|]. split; [exact Hmsg|]. split; [exact (Hother Hnone)|].
  exact Hmsg0.
Defined.

End RoutingClaims.
